(** * Verification of the polling / deduplication / notification core of
    [bot.py] (npc-discord-bot).

    The development follows the source file top-down: the feed fetcher
    ([normalize_link], [fetch_latest_items]), the dedup store ([load_state],
    [save_state]), the poll cycle ([news_loop]), the tick cycle
    ([tick_loop]) and the start-up handler ([on_ready]).

    External collaborators are oracles of an environment record: the chat
    platform (channel lookup, message delivery), the HTTP session together
    with the HTML parser, and the file system.  [hashlib.sha1] is a section
    variable.

    Modelling choices:
    - a message is an event carrying the values its text is built from; the
      wall-clock stamp of a news message is left out;
    - the state file, when it parses, holds a JSON object of lists of
      strings, which is what [save_state] writes;
    - [list(s)] enumerates a set in an order Python leaves open; [elements]
      is one such order, and the program reads an entry back only through
      [set(...)];
    - an [await] is a call: the two loops and the handlers do not interleave
      inside one invocation;
    - a delivery that the platform refuses raises, in [report_error] as
      anywhere else; an exception that leaves the coroutine of a loop ends
      the task of that loop, which [is_running()] then reports (the
      connection errors after which [tasks.loop] calls the coroutine again
      are not told apart from a refusal). *)

From stdpp Require Import gmap strings list fin_maps.
From Stdlib Require Import ZArith Lia.

Local Open Scope string_scope.
Local Open Scope Z_scope.
Local Open Scope list_scope.

(** ** Python string primitives used by the source *)

(** [s.startswith(p)] *)
Definition startswith (p s : string) : bool := String.prefix p s.

(** [sub in s] on strings: some suffix of [s] starts with [sub]. *)
Fixpoint contains (sub s : string) : bool :=
  String.prefix sub s ||
  match s with
  | EmptyString => false
  | String _ rest => contains sub rest
  end.

(** ** Feed fetcher *)

Record Item := mkItem { id : string; title : string; link : string }.

#[global] Instance Item_eq_dec : EqDecision Item.
Proof. solve_decision. Defined.

Definition SITE : string := "https://mabinogimobile.nexon.com".

Definition NEWS_SEGMENTS : list string :=
  ["/News/Notice"; "/News/Update"; "/News/Events"; "/News/Devnote"].

(** Lines 132-133: a site-relative href is completed with the site prefix. *)
Definition resolve_href (href : string) : string :=
  if startswith "/" href then SITE +:+ href else href.

(** Lines 135-137: only links into the news sections of the site are kept. *)
Definition is_news_link (href : string) : bool :=
  contains "mabinogimobile.nexon.com" href &&
  existsb (fun seg => contains seg href) NEWS_SEGMENTS.

(** Lines 129-140: the loop over the [<a href>] elements.  The parsed
    document is given as the list of pairs ([a.get_text(strip=True)],
    [a["href"]]) in document order. *)
Fixpoint collect_anchors (page : list (string * string)) : list (string * string) :=
  match page with
  | [] => []
  | (text, href) :: rest =>
      let href := resolve_href href in
      if is_news_link href then
        if bool_decide (text ≠ "") then (text, href) :: collect_anchors rest
        else collect_anchors rest
      else collect_anchors rest
  end.

Section Fetcher.

(** [hashlib.sha1(url.encode("utf-8")).hexdigest()] *)
Variable sha1_hex : string → string.

Definition normalize_link (url : string) : string := sha1_hex url.

(** Lines 143-152: duplicate removal (first occurrence wins) and the cut
    at [limit] items, tested after each append. *)
Fixpoint dedup_loop (anchors : list (string * string)) (seen : gset string)
    (items : list Item) (limit : Z) : list Item :=
  match anchors with
  | [] => items
  | (title, href) :: rest =>
      let key := normalize_link href in
      if decide (key ∈ seen) then dedup_loop rest seen items limit
      else
        let seen := {[key]} ∪ seen in
        let items := items ++ [mkItem key title href] in
        if Z.of_nat (length items) >=? limit then items
        else dedup_loop rest seen items limit
  end.

(** The body of the [try] block after the page has been retrieved and
    parsed. *)
Definition extract_items (page : list (string * string)) (limit : Z) : list Item :=
  dedup_loop (collect_anchors page) ∅ [] limit.

End Fetcher.

(** ** The world outside the program *)

(** The source registry [NEWS_SOURCES]: a dict, iterated in insertion
    order, from the source name to the pair (URL, label). *)
Record Source := mkSource { src_name : string; src_url : string; src_label : string }.

Definition NEWS_SOURCES : list Source :=
  [ mkSource "공지사항" "https://mabinogimobile.nexon.com/News/Notice" "📣 공지";
    mkSource "업데이트" "https://mabinogimobile.nexon.com/News/Update" "🛠 업데이트";
    mkSource "이벤트" "https://mabinogimobile.nexon.com/News/Events?headlineId=2501" "🎉 이벤트";
    mkSource "에린노트" "https://mabinogimobile.nexon.com/News/Devnote" "📔 에린노트" ].

#[global] Instance Source_eq_dec : EqDecision Source.
Proof. solve_decision. Defined.

(** The content of [seen.json]: source name to the list of seen ids. *)
Abbreviation State := (gmap string (list string)).

(** [now.hour], [now.minute] of [datetime.now(KST)]. *)
Record Clock := mkClock { hour : Z; minute : Z }.

(** The two messages of [tick_loop]; [mention] is the role token, absent
    when the configured role id is 0. *)
Inductive Alert :=
  | HourTick (mention : option Z) (now : Clock)
  | FieldBoss (mention : option Z) (now : Clock).

(** What the program does to its surroundings, in order. *)
Inductive Event :=
  | EvLoad                                  (* load_state() *)
  | EvFetch (name url : string)             (* SESSION.get(url, timeout=10) *)
  | EvWarn (name : string)                  (* logging.warning in the fetcher *)
  | EvAnnounce (mention : option Z) (label : string) (it : Item)
                                            (* ch.send of announce_news_item *)
  | EvSave (st : State)                     (* seen.json rewritten with st *)
  | EvSleep                                 (* time.sleep(0.5) in the executor *)
  | EvAlert (a : Alert)                     (* ch.send of tick_loop *)
  | EvReport (prefix : string).             (* ch.send, or print, of report_error *)

#[global] Instance Clock_eq_dec : EqDecision Clock.
Proof. solve_decision. Defined.

#[global] Instance Alert_eq_dec : EqDecision Alert.
Proof. solve_decision. Defined.

#[global] Instance Event_eq_dec : EqDecision Event.
Proof. solve_decision. Defined.

(** How a call of [save_state] ends: the file is rewritten; [open] fails and
    the file is left alone; or [open(..., "w")] has truncated the file and
    [json.dump] fails, which leaves an unreadable file. *)
Inductive WriteResult := Written | OpenFailed | DumpFailed.

(** The collaborators.  The delivery oracles and the file-system oracle
    are asked with the history so far, so that any call may fail. *)
Record Env := mkEnv {
  HOUR_TICK_ROLE_ID : Z;
  FIELD_BOSS_ROLE_ID : Z;
  ANNOUNCE_ROLE_ID : Z;
  (* get_channel(NOTICE_CHANNEL_ID) is truthy *)
  notice_channel : bool;
  (* get_channel(ALERT_CHANNEL_ID) is truthy *)
  alert_channel : bool;
  (* datetime.now(KST) *)
  clock : Clock;
  (* SESSION.get + raise_for_status + BeautifulSoup: the (text, href) pairs
     of the anchors of the page, or None when any of them raises *)
  http_get : string → option (list (string * string));
  (* ch.send returns normally *)
  send_ok : list Event → bool;
  write_result : list Event → WriteResult;
  (* get_channel(LOG_CHANNEL_ID) is truthy *)
  log_channel : bool;
  (* ch.send of report_error returns normally *)
  log_send_ok : list Event → bool
}.

(** The mutable surroundings: the state file ([None]: missing or not
    parsable; [Some st]: a JSON object of string lists), the module global
    [_bootstrap_done], and the history. *)
Record World := mkWorld {
  file : option State;
  bootstrap_done : bool;
  trace : list Event
}.

Definition log (e : Event) (w : World) : World :=
  mkWorld (file w) (bootstrap_done w) (trace w ++ [e]).

(** ** Programs: state passing with exceptions *)

Inductive Outcome (A : Type) := Return (a : A) | Raised.
Arguments Return {A} a.
Arguments Raised {A}.

Definition Prog (A : Type) : Type := World → Outcome A * World.

Definition ret {A} (a : A) : Prog A := fun w => (Return a, w).

Definition bind {A B} (m : Prog A) (k : A → Prog B) : Prog B :=
  fun w => match m w with
           | (Return a, w') => k a w'
           | (Raised, w') => (Raised, w')
           end.

(** [try: m / except Exception: h] *)
Definition catch {A} (m h : Prog A) : Prog A :=
  fun w => match m w with
           | (Return a, w') => (Return a, w')
           | (Raised, w') => h w'
           end.

(** The call has returned: no exception has left it. *)
Definition returned {A} (r : Outcome A * World) : bool :=
  match fst r with Return _ => true | Raised => false end.

Notation "'let*' x ':=' m 'in' k" := (bind m (fun x => k))
  (at level 10, x name, m at level 100, k at level 200, only parsing).
Notation "m >> k" := (bind m (fun _ => k))
  (at level 100, k at level 200, right associativity, only parsing).

(** [f"<@&{ID}>" if ID else ""] *)
Definition role_mention (role_id : Z) : option Z :=
  if role_id =? 0 then None else Some role_id.

Section Bot.

Variable sha1_hex : string → string.

Section Cycle.

Variable env : Env.

(** *** Dedup store *)

(** [{k: [] for k in NEWS_SOURCES.keys()}] *)
Definition empty_state : State :=
  list_to_map (map (fun s => (src_name s, [])) NEWS_SOURCES).

(** Lines 99-106: a missing or unreadable file gives the empty state. *)
Definition load_state : Prog State := fun w =>
  (Return (match file w with Some st => st | None => empty_state end),
   log EvLoad w).

(** Lines 108-110. *)
Definition save_state (state : State) : Prog unit := fun w =>
  match write_result env (trace w) with
  | Written =>
      (Return tt, mkWorld (Some state) (bootstrap_done w) (trace w ++ [EvSave state]))
  | OpenFailed => (Raised, w)
  | DumpFailed => (Raised, mkWorld None (bootstrap_done w) (trace w))
  end.

(** *** Feed fetcher with its [try]/[except] *)

(** Lines 117-156: whatever raises inside the [try] is logged and gives
    the empty list. *)
Definition fetch_latest_items (name url : string) (limit : Z) : Prog (list Item) :=
  fun w =>
    let w := log (EvFetch name url) w in
    match http_get env url with
    | Some page => (Return (extract_items sha1_hex page limit), w)
    | None => (Return [], log (EvWarn name) w)
    end.

(** *** Dispatcher *)

(** Lines 158-164. *)
Definition announce_news_item (label : string) (item : Item) : Prog unit :=
  fun w =>
    if send_ok env (trace w)
    then (Return tt, log (EvAnnounce (role_mention (ANNOUNCE_ROLE_ID env)) label item) w)
    else (Raised, w).

(** Line 198. *)
Definition sleep : Prog unit := fun w => (Return tt, log EvSleep w).

(** The read of the global [_bootstrap_done] on line 185. *)
Definition read_bootstrap_done : Prog bool := fun w => (Return (bootstrap_done w), w).

(** *** Poll cycle *)

(** [set(state.get(name, []))] *)
Definition known_ids (state : State) (name : string) : gset string :=
  list_to_set (default [] (state !! name)).

(** Lines 191-195, over the already reversed list. *)
Fixpoint announce_loop (name label : string) (its : list Item)
    (known : gset string) (state : State) : Prog State :=
  match its with
  | [] => ret state
  | it :: rest =>
      announce_news_item label it >>
      let known := {[id it]} ∪ known in
      let state := <[name := elements known]> state in
      save_state state >>
      announce_loop name label rest known state
  end.

(** Lines 177-198: the body of the loop over the sources. *)
Definition poll_source (state : State) (s : Source) : Prog State :=
  let name := src_name s in
  let* items := fetch_latest_items name (src_url s) 5 in
  match items with
  | [] => ret state
  | _ :: _ =>
      let known := known_ids state name in
      let new_items := filter (fun it => id it ∉ known) items in
      let* done := read_bootstrap_done in
      if negb done then
        let state := <[name := elements (known ∪ list_to_set (map id items))]> state in
        save_state state >>
        ret state
      else
        let* state := announce_loop name (src_label s) (reverse new_items) known state in
        sleep >>
        ret state
  end.

(** Line 176: [for name, (url, label) in NEWS_SOURCES.items()]. *)
Fixpoint for_sources (srcs : list Source) (state : State) : Prog State :=
  match srcs with
  | [] => ret state
  | s :: rest =>
      let* state := poll_source state s in
      for_sources rest state
  end.

(** Lines 170-198: the [try] block of [news_loop]. *)
Definition news_loop_body : Prog unit :=
  if notice_channel env then
    let* state := load_state in
    for_sources NEWS_SOURCES state >>
    ret tt
  else ret tt.

(** Lines 54-59: the traceback goes to the log channel, or to the standard
    output when that channel does not resolve.  The delivery is awaited like
    any other: the platform may refuse it, and then [report_error] raises. *)
Definition report_error (prefix : string) : Prog unit := fun w =>
  if log_channel env then
    if log_send_ok env (trace w)
    then (Return tt, log (EvReport prefix) w)
    else (Raised, w)
  else (Return tt, log (EvReport prefix) w).

(** Lines 167-201: one invocation of the coroutine of [news_loop], the
    [try] block and its handler.  What [report_error] raises inside the
    handler leaves the coroutine. *)
Definition news_loop_coro : Prog unit :=
  catch news_loop_body (report_error "news_loop 에러").

(** The surroundings after one invocation of [news_loop]. *)
Definition news_loop (w : World) : World := snd (news_loop_coro w).

(** *** Tick cycle *)

Definition send_alert (a : Alert) : Prog unit := fun w =>
  if send_ok env (trace w) then (Return tt, log (EvAlert a) w) else (Raised, w).

(** Line 70. *)
Definition is_hour_tick (now : Clock) : bool :=
  (minute now =? 0) && ((9 <=? hour now) && (hour now <=? 23)).

(** Line 75. *)
Definition is_field_boss (now : Clock) : bool :=
  (minute now =? 0) && bool_decide (hour now ∈ [12; 18; 20; 22]).

(** Lines 65-77: the [try] block of [tick_loop]. *)
Definition tick_loop_body : Prog unit :=
  let now := clock env in
  if alert_channel env then
    (if is_hour_tick now
     then send_alert (HourTick (role_mention (HOUR_TICK_ROLE_ID env)) now)
     else ret tt) >>
    (if is_field_boss now
     then send_alert (FieldBoss (role_mention (FIELD_BOSS_ROLE_ID env)) now)
     else ret tt)
  else ret tt.

(** Lines 63-80: one invocation of the coroutine of [tick_loop]. *)
Definition tick_loop_coro : Prog unit :=
  catch tick_loop_body (report_error "tick_loop 에러").

(** The surroundings after one invocation of [tick_loop]. *)
Definition tick_loop (w : World) : World := snd (tick_loop_coro w).

End Cycle.

End Bot.

(** ** Start-up and the bootstrap gate *)

(** The timer callback of [on_ready]:
    [globals().__setitem__("_bootstrap_done", True)]. *)
Definition set_bootstrap_done (w : World) : World := mkWorld (file w) true (trace w).

(** The process: its surroundings, whether each of the two task loops runs
    ([is_running()]), and the number of [call_later] callbacks still
    pending. *)
Record Process := mkProcess {
  world : World;
  tick_running : bool;
  news_running : bool;
  timers : nat
}.

(** The module has been loaded (line 97): the gate is false and no loop
    runs. *)
Definition process_start (file0 : option State) : Process :=
  mkProcess (mkWorld file0 false []) false false 0.

(** Lines 273-282 of [on_ready] (the greeting in the log channel is left
    out: the handler is taken from the point where it has got past it):
    start [tick_loop] unless it runs; set [_bootstrap_done = False]; and,
    unless [news_loop] runs, start it and schedule the callback that sets
    the gate. *)
Definition on_ready (p : Process) : Process :=
  let w := mkWorld (file (world p)) false (trace (world p)) in
  if news_running p
  then mkProcess w true true (timers p)
  else mkProcess w true true (S (timers p)).

(** What can happen to the process: the platform calls [on_ready], a
    pending callback fires, or a running loop is invoked.  A loop whose
    coroutine lets an exception out is no longer running: its task has
    ended, and only [start()] in a later [on_ready] brings it back. *)
Inductive Step :=
  | Ready
  | Timer
  | Poll (env : Env)
  | Tick (env : Env).

#[global] Instance Step_is_ready_dec (st : Step) : Decision (st = Ready).
Proof. destruct st; [left|right|right|right]; done. Defined.

Definition step (sha1_hex : string → string) (p : Process) (st : Step) : Process :=
  match st with
  | Ready => on_ready p
  | Timer =>
      match timers p with
      | O => p
      | S n => mkProcess (set_bootstrap_done (world p)) (tick_running p) (news_running p) n
      end
  | Poll env =>
      if news_running p
      then mkProcess (news_loop sha1_hex env (world p)) (tick_running p)
                     (returned (news_loop_coro sha1_hex env (world p))) (timers p)
      else p
  | Tick env =>
      if tick_running p
      then mkProcess (tick_loop env (world p))
                     (returned (tick_loop_coro env (world p))) (news_running p) (timers p)
      else p
  end.

Definition run (sha1_hex : string → string) (steps : list Step) (p : Process) : Process :=
  fold_left (step sha1_hex) steps p.

(** ** Several cycles in a row *)

(** The poll cycle invoked once per environment, the state file handed
    from one invocation to the next. *)
Fixpoint run_cycles (sha1_hex : string → string) (envs : list Env) (w : World) : World :=
  match envs with
  | [] => w
  | env :: rest => run_cycles sha1_hex rest (news_loop sha1_hex env w)
  end.

(** * Observations *)

(** ** Histories and persisted states *)

(** The state the program reads: [load_state] applied to the file. *)
Definition stored (w : World) : State :=
  match file w with Some st => st | None => empty_state end.

Definition ids (items : list Item) : gset string := list_to_set (map id items).

(** The events an invocation has added to the history. *)
Definition emitted (w w' : World) : list Event := drop (length (trace w)) (trace w').

(** The items announced under a label, in the order of the history. *)
Definition announced (label : string) (tr : list Event) : list Item :=
  omap (fun e => match e with
                 | EvAnnounce _ l it => if decide (l = label) then Some it else None
                 | _ => None
                 end) tr.

(** The notifications under a label for the item of id [x]. *)
Definition announcements_of (label x : string) (tr : list Event) : list Item :=
  filter (fun it => id it = x) (announced label tr).

(** The alerts in a history, in order. *)
Definition alerts (tr : list Event) : list Alert :=
  omap (fun e => match e with EvAlert a => Some a | _ => None end) tr.

(** ** Summaries of the poll cycle

    What a cycle returns and adds to the history when nothing fails, as
    functions of the state and of the batches fetched.  The run lemmas of
    the theory relate them to the programs above. *)

Section Summary.

Variable sha1_hex : string → string.
Variable env : Env.

(** What [fetch_latest_items] returns for a source, and what it leaves
    in the history. *)
Definition fetched_items (s : Source) : list Item :=
  match http_get env (src_url s) with
  | Some page => extract_items sha1_hex page 5
  | None => []
  end.

Definition fetch_events (s : Source) : list Event :=
  EvFetch (src_name s) (src_url s) ::
  match http_get env (src_url s) with
  | Some _ => []
  | None => [EvWarn (src_name s)]
  end.

Definition mention : option Z := role_mention (ANNOUNCE_ROLE_ID env).

(** The history and the final in-memory state of the dispatch loop. *)
Fixpoint dispatch_events (name label : string) (its : list Item)
    (known : gset string) (state : State) : list Event :=
  match its with
  | [] => []
  | it :: rest =>
      let known := {[id it]} ∪ known in
      let state := <[name := elements known]> state in
      EvAnnounce mention label it :: EvSave state ::
      dispatch_events name label rest known state
  end.

Fixpoint dispatch_state (name : string) (its : list Item)
    (known : gset string) (state : State) : State :=
  match its with
  | [] => state
  | it :: rest =>
      let known := {[id it]} ∪ known in
      dispatch_state name rest known (<[name := elements known]> state)
  end.

Definition new_items (state : State) (s : Source) : list Item :=
  filter (fun it => id it ∉ known_ids state (src_name s)) (fetched_items s).

Definition baseline (state : State) (s : Source) : State :=
  <[src_name s := elements (known_ids state (src_name s) ∪ ids (fetched_items s))]> state.

(** One source: the in-memory state and the history it adds. *)
Definition source_state (gate : bool) (state : State) (s : Source) : State :=
  match fetched_items s with
  | [] => state
  | _ :: _ =>
      if gate
      then dispatch_state (src_name s) (reverse (new_items state s))
             (known_ids state (src_name s)) state
      else baseline state s
  end.

Definition source_events (gate : bool) (state : State) (s : Source) : list Event :=
  fetch_events s ++
  match fetched_items s with
  | [] => []
  | _ :: _ =>
      if gate
      then dispatch_events (src_name s) (src_label s) (reverse (new_items state s))
             (known_ids state (src_name s)) state ++ [EvSleep]
      else [EvSave (baseline state s)]
  end.

Fixpoint cycle_state (gate : bool) (state : State) (srcs : list Source) : State :=
  match srcs with
  | [] => state
  | s :: rest => cycle_state gate (source_state gate state s) rest
  end.

Fixpoint cycle_events (gate : bool) (state : State) (srcs : list Source) : list Event :=
  match srcs with
  | [] => []
  | s :: rest =>
      source_events gate state s ++ cycle_events gate (source_state gate state s) rest
  end.

(** The effects of the dispatch loop on the [i]-th item of [order]: its
    notification, then the rewrite of the state file in which the entry of
    the source holds the ids known before and those of the items
    dispatched so far, this one included. *)
Definition item_effects (name label : string) (known : gset string) (state : State)
    (order : list Item) (i : nat) (it : Item) : list Event :=
  [EvAnnounce mention label it;
   EvSave (<[name := elements (ids (take (S i) order) ∪ known)]> state)].

End Summary.

(** What [report_error] adds to the history [tr]: its message, unless the
    log channel resolves and refuses it. *)
Definition report_events (env : Env) (prefix : string) (tr : list Event) : list Event :=
  if log_channel env && negb (log_send_ok env tr) then [] else [EvReport prefix].

(** The entry of a source after it has been polled, from its entry before
    and the batch fetched. *)
Definition entry_step (gate : bool) (items : list Item)
    (entry : option (list string)) : option (list string) :=
  let known : gset string := list_to_set (default [] entry) in
  match items with
  | [] => entry
  | _ :: _ =>
      if gate then
        match filter (fun it => id it ∉ known) items with
        | [] => entry
        | new => Some (elements (ids new ∪ known))
        end
      else Some (elements (known ∪ ids items))
  end.

(** ** Conditions on the surroundings *)

(** No delivery and no write fails. *)
Definition reliable (env : Env) : Prop :=
  (∀ t, send_ok env t = true) ∧ (∀ t, write_result env t = Written).

(** The surroundings [env], except that the platform refuses the delivery
    asked at the history [h]. *)
Definition refusing (env : Env) (h : list Event) : Env :=
  mkEnv (HOUR_TICK_ROLE_ID env) (FIELD_BOSS_ROLE_ID env) (ANNOUNCE_ROLE_ID env)
        (notice_channel env) (alert_channel env) (clock env) (http_get env)
        (fun t => if decide (t = h) then false else send_ok env t)
        (write_result env) (log_channel env) (log_send_ok env).

(** The id [x] is in the batch fetched for [s] in the cycle run in [env];
    no batch is fetched when the channel does not resolve. *)
Definition appears (sha1_hex : string → string) (env : Env) (s : Source) (x : string) : Prop :=
  notice_channel env = true ∧ x ∈ ids (fetched_items sha1_hex env s).

(** No program of the two cycles writes the gate, whatever fails. *)
Definition keeps_gate {A} (m : Prog A) : Prop :=
  ∀ w, bootstrap_done (snd (m w)) = bootstrap_done w.

(** A program only ever adds to the history, whatever fails. *)
Definition appends {A} (m : Prog A) : Prop :=
  ∀ w, ∃ d, trace (snd (m w)) = trace w ++ d.

(** ** The delay, in the words of the specification *)

(** The delay as the specification words it: whenever two notifications
    under a label follow each other in a history, a sleep lies between
    them. *)
Definition delay_between_dispatches (label : string) (tr : list Event) : Prop :=
  ∀ t1 m1 a t2 m2 b t3,
    tr = t1 ++ EvAnnounce m1 label a :: t2 ++ EvAnnounce m2 label b :: t3 →
    announced label t2 = [] →
    EvSleep ∈ t2.

(** ** Concrete surroundings for the examples *)

(** A stand-in for the hash in examples: the link itself. *)
Definition plain_hash (u : string) : string := u.

Definition NOTICE_URL : string := "https://mabinogimobile.nexon.com/News/Notice".

Definition UPDATE_URL : string := "https://mabinogimobile.nexon.com/News/Update".

Definition notice_source : Source := mkSource "공지사항" NOTICE_URL "📣 공지".

Definition update_source : Source := mkSource "업데이트" UPDATE_URL "🛠 업데이트".

(** An environment in which only the notice page answers, every delivery
    and every write succeeds, and it is noon. *)
Definition notice_env (page : list (string * string)) : Env :=
  mkEnv 0 0 0 true true (mkClock 12 0)
        (fun u => if decide (u = NOTICE_URL) then Some page else None)
        (fun _ => true) (fun _ => Written) true (fun _ => true).

(** [notice_env], with an update page that answers as well. *)
Definition two_page_env (notice update : list (string * string)) : Env :=
  mkEnv 0 0 0 true true (mkClock 12 0)
        (fun u => if decide (u = UPDATE_URL) then Some update
                  else http_get (notice_env notice) u)
        (fun _ => true) (fun _ => Written) true (fun _ => true).

(** The platform refuses every message. *)
Definition deaf_env (page : list (string * string)) : Env :=
  mkEnv 0 0 0 true true (mkClock 12 0)
        (fun u => if decide (u = NOTICE_URL) then Some page else None)
        (fun _ => false) (fun _ => Written) true (fun _ => true).

(** The state file cannot be opened for writing. *)
Definition readonly_env (page : list (string * string)) : Env :=
  mkEnv 0 0 0 true true (mkClock 12 0)
        (fun u => if decide (u = NOTICE_URL) then Some page else None)
        (fun _ => true) (fun _ => OpenFailed) true (fun _ => true).

Definition page_AE : list (string * string) :=
  [("A", "/News/Notice/5"); ("B", "/News/Notice/4"); ("C", "/News/Notice/3");
   ("D", "/News/Notice/2"); ("E", "/News/Notice/1")].

Definition page_FD : list (string * string) :=
  [("F", "/News/Notice/6"); ("A", "/News/Notice/5"); ("B", "/News/Notice/4");
   ("C", "/News/Notice/3"); ("D", "/News/Notice/2")].

Definition page_UV : list (string * string) :=
  [("V", "/News/Update/2"); ("U", "/News/Update/1")].

(** The item the fetcher builds, with [plain_hash], for a notice link. *)
Definition notice_item (title path : string) : Item :=
  mkItem (SITE +:+ path) title (SITE +:+ path).

(** A fresh process on a machine without a state file. *)
Definition fresh_world : World := mkWorld None false [].

(** A process whose gate is open, on a machine without a state file. *)
Definition open_world : World := mkWorld None true [].

(** A process whose gate is open, with a state file that knows two notices,
    one of them no longer on the page, and holds an entry that belongs to
    no registered source. *)
Definition seeded_world : World :=
  mkWorld (Some (<[ "공지사항" := [SITE +:+ "/News/Notice/1"; SITE +:+ "/News/Notice/0"] ]>
                   {[ "메모" := ["x"] ]}))
          true [].

(** The platform refuses every message, the error report included. *)
Definition mute_env (page : list (string * string)) : Env :=
  mkEnv 0 0 0 true true (mkClock 12 0)
        (fun u => if decide (u = NOTICE_URL) then Some page else None)
        (fun _ => false) (fun _ => Written) true (fun _ => false).

(** * Further observations *)

(** ** Programs that may raise: what holds when they end *)

(** From a world that satisfies [P], the program ends in a world that
    satisfies [Q] with its result if it returns, [R] if it raises. *)
Definition ensures {A} (m : Prog A) (P : World → Prop)
    (Q : A → World → Prop) (R : World → Prop) : Prop :=
  ∀ w, P w → match m w with
             | (Return a, w') => Q a w'
             | (Raised, w') => R w'
             end.

(** ** What a history holds *)

(** The events by which the poll cycle is felt outside: a notification or
    the pause after a source. *)
Definition is_loud (e : Event) : bool :=
  match e with
  | EvAnnounce _ _ _ | EvSleep => true
  | _ => false
  end.

(** An error report. *)
Definition is_report (e : Event) : bool :=
  match e with EvReport _ => true | _ => false end.

(** The history [d] added since [w0] is all the world [w] has beyond it. *)
Definition extends_by (w0 w : World) (d : list Event) : Prop :=
  trace w = trace w0 ++ d.

(** ** Summary of the tick cycle *)

(** What one invocation of [tick_loop] adds to the history [tr], by the
    clock and by what the platform does with each message. *)
Definition tick_events (env : Env) (tr : list Event) : list Event :=
  let now := clock env in
  let hourly := EvAlert (HourTick (role_mention (HOUR_TICK_ROLE_ID env)) now) in
  let boss := EvAlert (FieldBoss (role_mention (FIELD_BOSS_ROLE_ID env)) now) in
  let report := report_events env "tick_loop 에러" in
  if alert_channel env then
    if is_hour_tick now then
      if send_ok env tr then
        if is_field_boss now then
          if send_ok env (tr ++ [hourly]) then [hourly; boss]
          else hourly :: report (tr ++ [hourly])
        else [hourly]
      else report tr
    else
      if is_field_boss now then
        if send_ok env tr then [boss] else report tr
      else []
  else [].

(** ** Surroundings in which the loops keep running *)

(** Every error report gets out: it is printed, or the log channel takes
    it.  Then nothing is raised inside the handler of a loop. *)
Definition report_arrives (env : Env) : Prop :=
  log_channel env = true → ∀ t, log_send_ok env t = true.

Definition reports_arrive (st : Step) : Prop :=
  match st with
  | Poll env | Tick env => report_arrives env
  | Ready | Timer => True
  end.

(** ** The text of an error report *)

(** [s[-n:]] for a positive [n], on a text taken as its sequence of code
    points: the last [n] of them, all of [s] when it is shorter. *)
Definition last_chars {A} (n : nat) (s : list A) : list A :=
  drop (length s - n) s.

(** Line 56 of [report_error]: the mark U+2757 and a space, the prefix, and
    the last 1800 code points of the traceback inside a code fence. *)
Definition error_message (prefix tb : list Z) : list Z :=
  [10071; 32] ++ prefix ++ [10; 96; 96; 96; 10]
  ++ last_chars 1800 tb ++ [10; 96; 96; 96].

(** ** The role panel *)

(** A role of the guild. *)
Record Role := mkRole { role_id : Z; role_name : string }.

(** The two answers of [toggle_role]. *)
Definition removed_text (role : Role) : string := "❎ `" +:+ role_name role +:+ "` 해제했어요".

Definition added_text (role : Role) : string := "✅ `" +:+ role_name role +:+ "` 설정했어요".

(** [toggle_role]: [roles] are the ids of [member.roles]; the platform
    carries out [remove_roles] / [add_roles] when [api_ok], and raises
    otherwise ([None]).  The result is the new roles of the member and the
    text returned. *)
Definition toggle_role (api_ok : bool) (roles : gset Z) (role : Role)
    : option (gset Z * string) :=
  if decide (role_id role ∈ roles) then
    if api_ok then Some (roles ∖ {[role_id role]}, removed_text role) else None
  else
    if api_ok then Some ({[role_id role]} ∪ roles, added_text role) else None.

(** The body shared by [hour_btn] and [boss_btn]: [guild_roles] answers
    [interaction.guild.get_role] with the name of the role of that id; the
    text is what the member is shown. *)
Definition role_button (configured : Z) (missing : string) (api_ok : bool)
    (guild_roles : gmap Z string) (roles : gset Z) : option (gset Z * string) :=
  match guild_roles !! configured with
  | None => Some (roles, missing)
  | Some name => toggle_role api_ok roles (mkRole configured name)
  end.

Definition hour_btn (env : Env) : bool → gmap Z string → gset Z → option (gset Z * string) :=
  role_button (HOUR_TICK_ROLE_ID env) "❌ `HOUR_TICK_ROLE_ID` 역할을 못 찾았어요".

Definition boss_btn (env : Env) : bool → gmap Z string → gset Z → option (gset Z * string) :=
  role_button (FIELD_BOSS_ROLE_ID env) "❌ `FIELD_BOSS_ROLE_ID` 역할을 못 찾았어요".

(** * Properties of the feed fetcher *)

Lemma resolve_href_site (h : string) :
  resolve_href (SITE +:+ h) = SITE +:+ h.
Proof. reflexivity. Qed.

Lemma resolve_href_relative (h : string) :
  startswith "/" h = true → resolve_href h = SITE +:+ h.
Proof. intros Hh. unfold resolve_href. by rewrite Hh. Qed.

Lemma resolve_href_idem (h : string) :
  resolve_href (resolve_href h) = resolve_href h.
Proof.
  unfold resolve_href at 2 3. destruct (startswith "/" h) eqn:Hh.
  - apply resolve_href_site.
  - unfold resolve_href. by rewrite Hh.
Qed.

Lemma collect_anchors_app (p q : list (string * string)) :
  collect_anchors (p ++ q) = collect_anchors p ++ collect_anchors q.
Proof.
  induction p as [|[text href] p IH]; simpl; [done|].
  destruct (is_news_link _); [|done].
  case_bool_decide; [|done]. by rewrite IH.
Qed.

Lemma collect_anchors_resolved (text href : string) (q : list (string * string)) :
  collect_anchors ((text, resolve_href href) :: q) = collect_anchors ((text, href) :: q).
Proof. simpl. by rewrite resolve_href_idem. Qed.

Section FetcherFacts.

Variable sha1_hex : string → string.

(** Every item the loop appends carries the hash of its own link. *)
Lemma dedup_loop_id anchors seen items limit :
  Forall (fun it => id it = normalize_link sha1_hex (link it)) items →
  Forall (fun it => id it = normalize_link sha1_hex (link it))
         (dedup_loop sha1_hex anchors seen items limit).
Proof.
  revert seen items. induction anchors as [|[t h] rest IH]; intros seen items Hit; simpl; [done|].
  case_decide; [by apply IH|].
  assert (Forall (fun it => id it = normalize_link sha1_hex (link it))
                 (items ++ [mkItem (normalize_link sha1_hex h) t h])) as Hit'.
  { apply Forall_app; split; [done|]. by constructor. }
  destruct (_ >=? _); [done|]. by apply IH.
Qed.

(** The ids of a batch are pairwise different. *)
Lemma dedup_loop_NoDup anchors seen items limit :
  seen = list_to_set (map id items) →
  NoDup (map id items) →
  NoDup (map id (dedup_loop sha1_hex anchors seen items limit)).
Proof.
  revert seen items. induction anchors as [|[t h] rest IH]; intros seen items Hseen Hnd; simpl; [done|].
  case_decide as Hin; [by apply IH|].
  assert (NoDup (map id (items ++ [mkItem (normalize_link sha1_hex h) t h]))) as Hnd'.
  { rewrite map_app. apply NoDup_app. split; [done|]. split; [|apply NoDup_singleton].
    intros x Hx Hx'. apply list_elem_of_singleton in Hx'. simpl in Hx'. subst x.
    apply Hin. rewrite Hseen. by apply elem_of_list_to_set. }
  destruct (_ >=? _); [done|]. apply IH; [|done].
  rewrite Hseen, map_app, list_to_set_app_L. simpl.
  rewrite union_empty_r_L. apply union_comm_L.
Qed.

Lemma extract_items_NoDup page limit :
  NoDup (map id (extract_items sha1_hex page limit)).
Proof. apply dedup_loop_NoDup; [done|constructor]. Qed.

Lemma extract_items_id page limit it :
  it ∈ extract_items sha1_hex page limit →
  id it = normalize_link sha1_hex (link it).
Proof.
  intros Hin.
  pose proof (dedup_loop_id (collect_anchors page) ∅ [] limit (Forall_nil_2 _)) as H.
  rewrite Forall_forall in H. by apply H.
Qed.

(** The batch never exceeds the bound by which the poll cycle asks. *)
Lemma dedup_loop_length anchors seen items limit :
  0 < limit →
  Z.of_nat (length items) < limit →
  Z.of_nat (length (dedup_loop sha1_hex anchors seen items limit)) ≤ limit.
Proof.
  intros Hl. revert seen items.
  induction anchors as [|[t h] rest IH]; intros seen items Hlen; simpl; [lia|].
  case_decide; [by apply IH|].
  destruct (Z.geb_spec (Z.of_nat (length (items ++ [mkItem (normalize_link sha1_hex h) t h]))) limit)
    as [Hge|Hlt].
  - rewrite length_app in *. simpl. lia.
  - by apply IH.
Qed.

End FetcherFacts.

(** * The poll cycle when no delivery and no write fails *)

Lemma world_eta (w : World) (d : list Event) :
  d = [] → mkWorld (file w) (bootstrap_done w) (trace w ++ d) = w.
Proof. intros ->. destruct w. simpl. by rewrite app_nil_r. Qed.

Section Run.

Variable sha1_hex : string → string.
Variable env : Env.

Lemma fetch_latest_items_run s w :
  fetch_latest_items sha1_hex env (src_name s) (src_url s) 5 w
  = (Return (fetched_items sha1_hex env s),
     mkWorld (file w) (bootstrap_done w) (trace w ++ fetch_events env s)).
Proof.
  unfold fetch_latest_items, fetched_items, fetch_events, log.
  destruct (http_get env (src_url s)); cbn [trace file bootstrap_done];
    by rewrite <- ?app_assoc.
Qed.

(** The world right after the fetch of a source. *)
Lemma poll_source_unfold state s w :
  poll_source sha1_hex env state s w
  = let w1 := mkWorld (file w) (bootstrap_done w) (trace w ++ fetch_events env s) in
    match fetched_items sha1_hex env s with
    | [] => (Return state, w1)
    | _ :: _ =>
        if bootstrap_done w
        then bind (announce_loop env (src_name s) (src_label s)
                     (reverse (new_items sha1_hex env state s))
                     (known_ids state (src_name s)) state)
                  (fun st => bind sleep (fun _ => ret st)) w1
        else bind (save_state env (baseline sha1_hex env state s))
                  (fun _ => ret (baseline sha1_hex env state s)) w1
    end.
Proof.
  unfold poll_source. unfold bind at 1. rewrite fetch_latest_items_run.
  destruct (fetched_items sha1_hex env s) as [|it items] eqn:Hf; [done|].
  unfold bind at 1. unfold read_bootstrap_done. cbn [bootstrap_done].
  unfold new_items, baseline, ids. rewrite Hf. by destruct (bootstrap_done w).
Qed.

Hypothesis write_always : ∀ t, write_result env t = Written.

Lemma announce_loop_run name label its known state w :
  (∀ t, send_ok env t = true) →
  announce_loop env name label its known state w =
    (Return (dispatch_state name its known state),
     mkWorld (match its with [] => file w | _ => Some (dispatch_state name its known state) end)
             (bootstrap_done w)
             (trace w ++ dispatch_events env name label its known state)).
Proof.
  intros send_always.
  revert known state w. induction its as [|it rest IH]; intros known state w.
  - simpl. unfold ret. destruct w; simpl. by rewrite app_nil_r.
  - simpl. unfold bind, announce_news_item, save_state. rewrite send_always. simpl.
    rewrite write_always. rewrite IH. simpl. f_equal. f_equal.
    + by destruct rest.
    + by rewrite <- !app_assoc.
Qed.

(** The file and the in-memory state agree between two sources.  Nothing
    is sent while the gate is closed, so deliveries matter only once it
    is open. *)
Lemma poll_source_run state s w :
  (bootstrap_done w = true → ∀ t, send_ok env t = true) →
  stored w = state →
  ∃ w', poll_source sha1_hex env state s w = (Return (source_state sha1_hex env (bootstrap_done w) state s), w')
        ∧ stored w' = source_state sha1_hex env (bootstrap_done w) state s
        ∧ bootstrap_done w' = bootstrap_done w
        ∧ trace w' = trace w ++ source_events sha1_hex env (bootstrap_done w) state s.
Proof.
  intros Hsend Hst. unfold poll_source, source_state, source_events, fetch_events, bind,
    fetch_latest_items, new_items, baseline, ids, fetched_items.
  destruct (http_get env (src_url s)) as [page|]; simpl.
  2:{ eexists; split; [reflexivity|]. simpl. by rewrite <- app_assoc. }
  destruct (extract_items sha1_hex page 5) as [|it items] eqn:Hitems.
  { unfold ret. eexists; split; [reflexivity|]. done. }
  unfold read_bootstrap_done. simpl. destruct (bootstrap_done w) eqn:Hg; simpl.
  - rewrite announce_loop_run by auto. unfold sleep, ret. simpl.
    eexists; split; [reflexivity|]. simpl. split; [|split; [done|]].
    + unfold stored. simpl.
      destruct (reverse _) eqn:Hrev; [|done]. simpl. apply Hst.
    + by rewrite <- !app_assoc.
  - unfold save_state. simpl. rewrite write_always. simpl.
    eexists; split; [reflexivity|]. simpl. split; [done|]. split; [done|].
    by rewrite <- !app_assoc.
Qed.

Lemma for_sources_run srcs state w :
  (bootstrap_done w = true → ∀ t, send_ok env t = true) →
  stored w = state →
  ∃ w', for_sources sha1_hex env srcs state w
          = (Return (cycle_state sha1_hex env (bootstrap_done w) state srcs), w')
        ∧ stored w' = cycle_state sha1_hex env (bootstrap_done w) state srcs
        ∧ bootstrap_done w' = bootstrap_done w
        ∧ trace w' = trace w ++ cycle_events sha1_hex env (bootstrap_done w) state srcs.
Proof.
  revert state w. induction srcs as [|s rest IH]; intros state w Hsend Hst; simpl.
  - exists w. by rewrite app_nil_r.
  - destruct (poll_source_run state s w Hsend Hst) as (w1 & Hrun & Hst1 & Hg1 & Htr1).
    unfold bind. rewrite Hrun.
    rewrite <- Hg1 in Hsend.
    destruct (IH _ w1 Hsend Hst1) as (w2 & Hrun2 & Hst2 & Hg2 & Htr2).
    rewrite Hg1 in *. exists w2. rewrite Hrun2, Htr2, Htr1, <- app_assoc. done.
Qed.

(** The [try] block of an invocation returns, and the handler is not
    entered. *)
Lemma news_loop_coro_run w :
  notice_channel env = true →
  (bootstrap_done w = true → ∀ t, send_ok env t = true) →
  ∃ w', news_loop_coro sha1_hex env w = (Return tt, w')
        ∧ stored w' = cycle_state sha1_hex env (bootstrap_done w) (stored w) NEWS_SOURCES
        ∧ bootstrap_done w' = bootstrap_done w
        ∧ trace w' = trace w ++ EvLoad
                       :: cycle_events sha1_hex env (bootstrap_done w) (stored w) NEWS_SOURCES.
Proof.
  intros Hch Hsend.
  destruct (for_sources_run NEWS_SOURCES (stored w) (log EvLoad w) Hsend eq_refl)
    as (w' & Hrun & Hst & Hg & Htr).
  exists w'. split; [|split; [done|split; [done|]]].
  - unfold news_loop_coro, catch, news_loop_body. rewrite Hch.
    cbv [bind load_state ret]. fold (stored w). by rewrite Hrun.
  - rewrite Htr. cbn [log trace]. by rewrite <- app_assoc.
Qed.

(** The whole invocation, when the channel resolves. *)
Lemma news_loop_run w :
  notice_channel env = true →
  (bootstrap_done w = true → ∀ t, send_ok env t = true) →
  stored (news_loop sha1_hex env w) = cycle_state sha1_hex env (bootstrap_done w) (stored w) NEWS_SOURCES
  ∧ bootstrap_done (news_loop sha1_hex env w) = bootstrap_done w
  ∧ trace (news_loop sha1_hex env w)
      = trace w ++ EvLoad :: cycle_events sha1_hex env (bootstrap_done w) (stored w) NEWS_SOURCES.
Proof.
  intros Hch Hsend.
  destruct (news_loop_coro_run w Hch Hsend) as (w' & Hrun & Hst & Hg & Htr).
  unfold news_loop. by rewrite Hrun.
Qed.

End Run.

(** * What a cycle does to one source *)

Lemma announced_app label t1 t2 :
  announced label (t1 ++ t2) = announced label t1 ++ announced label t2.
Proof. apply omap_app. Qed.

Lemma ids_reverse items : ids (reverse items) = ids items.
Proof.
  unfold ids. apply set_eq. intros x.
  rewrite !elem_of_list_to_set. change (map id) with (fmap (M:=list) id).
  by rewrite fmap_reverse, elem_of_reverse.
Qed.

Lemma ids_filter_union (known : gset string) items :
  ids (filter (fun it => id it ∉ known) items) ∪ known = known ∪ ids items.
Proof.
  unfold ids. apply set_eq. intros x.
  rewrite !elem_of_union, !elem_of_list_to_set, !list_elem_of_fmap.
  split.
  - intros [(it & -> & Hin)|Hk]; [|by left].
    apply list_elem_of_filter in Hin as [_ Hin]. right. by exists it.
  - intros [Hk|(it & -> & Hin)]; [by right|].
    destruct (decide (id it ∈ known)) as [Hk|Hk]; [by right|].
    left. exists it. split; [done|]. by apply list_elem_of_filter.
Qed.

Lemma entry_step_known gate items entry :
  (list_to_set (default [] (entry_step gate items entry)) : gset string)
  = list_to_set (default [] entry) ∪ ids items.
Proof.
  unfold entry_step. destruct items as [|it items].
  { unfold ids. simpl. by rewrite union_empty_r_L. }
  destruct gate.
  - destruct (filter _ _) as [|n new] eqn:Hnew.
    + rewrite <- ids_filter_union, Hnew. unfold ids. simpl. by rewrite union_empty_l_L.
    + simpl. rewrite list_to_set_elements_L, <- Hnew. apply ids_filter_union.
  - simpl. by rewrite list_to_set_elements_L.
Qed.

Section Projections.

Variable sha1_hex : string → string.
Variable env : Env.

Lemma dispatch_state_closed name its known state :
  dispatch_state name its known state =
    match its with
    | [] => state
    | _ :: _ => <[name := elements (ids its ∪ known)]> state
    end.
Proof.
  revert known state. induction its as [|it rest IH]; intros known state; [done|].
  simpl. rewrite IH. destruct rest as [|it' rest].
  - unfold ids. simpl. by rewrite union_empty_r_L.
  - rewrite insert_insert_eq. f_equal. f_equal. unfold ids. simpl.
    apply set_eq. intros x. rewrite !elem_of_union. tauto.
Qed.

Lemma dispatch_events_announced name label its known state l :
  announced l (dispatch_events env name label its known state)
  = if decide (label = l) then its else [].
Proof.
  revert known state. induction its as [|it rest IH]; intros known state; simpl.
  - by case_decide.
  - rewrite IH. by case_decide.
Qed.

Lemma fetch_events_announced s l : announced l (fetch_events env s) = [].
Proof. unfold fetch_events. by destruct (http_get _ _). Qed.

Lemma source_state_other gate state s n :
  n ≠ src_name s → source_state sha1_hex env gate state s !! n = state !! n.
Proof.
  intros Hn. unfold source_state, baseline.
  destruct (fetched_items _ _ _); [done|]. destruct gate.
  - rewrite dispatch_state_closed. destruct (reverse _); [done|]. by rewrite lookup_insert_ne.
  - by rewrite lookup_insert_ne.
Qed.

Lemma source_state_entry gate state s :
  source_state sha1_hex env gate state s !! src_name s
  = entry_step gate (fetched_items sha1_hex env s) (state !! src_name s).
Proof.
  unfold source_state, entry_step, baseline, new_items, known_ids.
  destruct (fetched_items _ _ _) as [|it items]; [done|]. destruct gate.
  - rewrite dispatch_state_closed.
    destruct (filter _ (it :: items)) as [|n new] eqn:Hnew; [done|].
    destruct (reverse (n :: new)) eqn:Hrev.
    { apply (f_equal length) in Hrev. rewrite length_reverse in Hrev. done. }
    rewrite <- Hrev, lookup_insert_eq, ids_reverse. done.
  - by rewrite lookup_insert_eq.
Qed.

Lemma source_events_announced gate state s l :
  announced l (source_events sha1_hex env gate state s)
  = if decide (src_label s = l)
    then (if gate then reverse (new_items sha1_hex env state s) else [])
    else [].
Proof.
  unfold source_events, new_items. rewrite announced_app, fetch_events_announced. simpl.
  destruct (fetched_items _ _ _) as [|it items] eqn:Hf.
  { simpl. case_decide; [|done]. by destruct gate. }
  destruct gate.
  - rewrite announced_app, dispatch_events_announced. simpl. rewrite app_nil_r. done.
  - simpl. by case_decide.
Qed.

Lemma cycle_state_other gate state srcs n :
  n ∉ map src_name srcs → cycle_state sha1_hex env gate state srcs !! n = state !! n.
Proof.
  revert state. induction srcs as [|s rest IH]; intros state Hn; [done|].
  cbn [cycle_events cycle_state map] in *. apply not_elem_of_cons in Hn as [Hn1 Hn2].
  rewrite IH by done. by apply source_state_other.
Qed.

Lemma cycle_state_entry gate state srcs s :
  NoDup (map src_name srcs) → s ∈ srcs →
  cycle_state sha1_hex env gate state srcs !! src_name s
  = entry_step gate (fetched_items sha1_hex env s) (state !! src_name s).
Proof.
  revert state. induction srcs as [|s' rest IH]; intros state Hnd Hin.
  { by apply elem_of_nil in Hin. }
  cbn [cycle_events cycle_state map] in *. apply NoDup_cons in Hnd as [Hnotin Hnd].
  apply elem_of_cons in Hin as [->|Hin].
  - rewrite cycle_state_other by done. apply source_state_entry.
  - rewrite IH by done. rewrite source_state_other; [done|].
    intros Heq. apply Hnotin. rewrite <- Heq. by apply list_elem_of_fmap_2.
Qed.

Lemma cycle_events_announced_other gate state srcs l :
  l ∉ map src_label srcs →
  announced l (cycle_events sha1_hex env gate state srcs) = [].
Proof.
  revert state. induction srcs as [|s rest IH]; intros state Hl; [done|].
  cbn [cycle_events cycle_state map] in *. apply not_elem_of_cons in Hl as [Hl1 Hl2].
  rewrite announced_app, IH, source_events_announced by done.
  by rewrite decide_False.
Qed.

Lemma cycle_events_announced gate state srcs s :
  NoDup (map src_name srcs) → NoDup (map src_label srcs) → s ∈ srcs →
  announced (src_label s) (cycle_events sha1_hex env gate state srcs)
  = if gate then reverse (new_items sha1_hex env state s) else [].
Proof.
  revert state. induction srcs as [|s' rest IH]; intros state Hnd Hndl Hin.
  { by apply elem_of_nil in Hin. }
  cbn [cycle_events cycle_state map] in *. apply NoDup_cons in Hnd as [Hnotin Hnd].
  apply NoDup_cons in Hndl as [Hnotinl Hndl].
  rewrite announced_app, source_events_announced.
  apply elem_of_cons in Hin as [->|Hin].
  - rewrite decide_True by done.
    rewrite cycle_events_announced_other by done. by rewrite app_nil_r.
  - rewrite decide_False.
    2:{ intros Heq. apply Hnotinl. rewrite Heq. by apply list_elem_of_fmap_2. }
    rewrite IH by done. unfold new_items, known_ids.
    rewrite source_state_other; [done|].
    intros Heq. apply Hnotin. rewrite <- Heq. by apply list_elem_of_fmap_2.
Qed.

End Projections.

Lemma NEWS_SOURCES_names : NoDup (map src_name NEWS_SOURCES).
Proof. apply (bool_decide_unpack _). by vm_compute. Qed.

Lemma NEWS_SOURCES_labels : NoDup (map src_label NEWS_SOURCES).
Proof. apply (bool_decide_unpack _). by vm_compute. Qed.

Lemma NEWS_SOURCES_urls : NoDup (map src_url NEWS_SOURCES).
Proof. apply (bool_decide_unpack _). by vm_compute. Qed.

Lemma emitted_app w w' d : trace w' = trace w ++ d → emitted w w' = d.
Proof. intros Htr. unfold emitted. rewrite Htr. by rewrite drop_app_length. Qed.

Section CycleOfSource.

Variable sha1_hex : string → string.
Variable env : Env.
Hypothesis channel_resolves : notice_channel env = true.
Hypothesis write_always : ∀ t, write_result env t = Written.

(** One invocation, seen from one registered source. *)
Lemma news_loop_source w s :
  (bootstrap_done w = true → ∀ t, send_ok env t = true) →
  s ∈ NEWS_SOURCES →
  stored (news_loop sha1_hex env w) !! src_name s
    = entry_step (bootstrap_done w) (fetched_items sha1_hex env s) (stored w !! src_name s)
  ∧ announced (src_label s) (emitted w (news_loop sha1_hex env w))
    = (if bootstrap_done w then reverse (new_items sha1_hex env (stored w) s) else [])
  ∧ bootstrap_done (news_loop sha1_hex env w) = bootstrap_done w.
Proof.
  intros Hsend Hs.
  destruct (news_loop_run sha1_hex env write_always w channel_resolves Hsend)
    as (Hst & Hg & Htr).
  split; [|split; [|done]].
  - rewrite Hst. apply cycle_state_entry; [apply NEWS_SOURCES_names|done].
  - rewrite (emitted_app _ _ _ Htr).
    change (EvLoad :: ?l) with ([EvLoad] ++ l). rewrite announced_app.
    change (announced (src_label s) [EvLoad]) with (@nil Item). rewrite app_nil_l.
    apply cycle_events_announced;
      [apply NEWS_SOURCES_names|apply NEWS_SOURCES_labels|done].
Qed.

Lemma news_loop_known w s :
  (bootstrap_done w = true → ∀ t, send_ok env t = true) →
  s ∈ NEWS_SOURCES →
  known_ids (stored (news_loop sha1_hex env w)) (src_name s)
  = known_ids (stored w) (src_name s) ∪ ids (fetched_items sha1_hex env s).
Proof.
  intros Hsend Hs. unfold known_ids.
  destruct (news_loop_source w s Hsend Hs) as (-> & _ & _).
  apply entry_step_known.
Qed.

End CycleOfSource.

(** * Bootstrap suppression, the unresolved channel, the ids of links *)

(** C1.  Bootstrap suppression: in an invocation of the poll cycle with the
    bootstrap gate false, for every registered source whose fetch returns a
    non-empty batch, no notification for that source is emitted, and
    afterwards the persisted ids of that source are the ids known before
    together with all fetched ids. *)
Theorem bootstrap_baselines_source (sha1_hex : string → string) (env : Env)
    (w : World) (s : Source) :
  notice_channel env = true →
  (∀ t, write_result env t = Written) →
  bootstrap_done w = false →
  s ∈ NEWS_SOURCES →
  fetched_items sha1_hex env s ≠ [] →
  announced (src_label s) (emitted w (news_loop sha1_hex env w)) = []
  ∧ known_ids (stored (news_loop sha1_hex env w)) (src_name s)
    = known_ids (stored w) (src_name s) ∪ ids (fetched_items sha1_hex env s)
  ∧ stored (news_loop sha1_hex env w) !! src_name s
    = Some (elements (known_ids (stored w) (src_name s)
                      ∪ ids (fetched_items sha1_hex env s))).
Proof.
  intros Hch Hwr Hg Hs Hitems.
  assert (bootstrap_done w = true → ∀ t, send_ok env t = true) as Hsend by congruence.
  destruct (news_loop_source sha1_hex env Hch Hwr w s Hsend Hs) as (Hentry & Hann & _).
  split; [|split].
  - rewrite Hann. by rewrite Hg.
  - by apply news_loop_known.
  - rewrite Hentry, Hg. unfold entry_step.
    by destruct (fetched_items sha1_hex env s).
Qed.

Lemma bootstrap_baselines_source_witness :
  announced "📣 공지"
    (emitted fresh_world (news_loop plain_hash (notice_env page_AE) fresh_world)) = []
  ∧ known_ids (stored (news_loop plain_hash (notice_env page_AE) fresh_world)) "공지사항"
    = known_ids (stored fresh_world) "공지사항"
      ∪ ids (fetched_items plain_hash (notice_env page_AE) notice_source)
  ∧ stored (news_loop plain_hash (notice_env page_AE) fresh_world) !! "공지사항"
    = Some (elements (known_ids (stored fresh_world) "공지사항"
                      ∪ ids (fetched_items plain_hash (notice_env page_AE) notice_source))).
Proof.
  apply (bootstrap_baselines_source plain_hash (notice_env page_AE) fresh_world notice_source).
  - reflexivity.
  - intros t; reflexivity.
  - reflexivity.
  - apply (bool_decide_unpack _). by vm_compute.
  - by vm_compute.
Defined.

Lemma news_loop_unresolved sha1_hex (env : Env) (w : World) :
  notice_channel env = false → news_loop sha1_hex env w = w.
Proof. intros Hch. unfold news_loop, news_loop_coro, catch, news_loop_body. by rewrite Hch. Qed.

(** C10.  When the notice channel cannot be resolved the invocation ends at
    once: no source is fetched, the state file is neither read nor written,
    nothing is baselined whatever the gate says, and the surroundings are
    exactly as before. *)
Theorem unresolved_channel_noop (sha1_hex : string → string) (env : Env) (w : World) :
  notice_channel env = false →
  news_loop sha1_hex env w = w
  ∧ emitted w (news_loop sha1_hex env w) = []
  ∧ file (news_loop sha1_hex env w) = file w.
Proof.
  intros Hch.
  rewrite (news_loop_unresolved sha1_hex env w Hch).
  split; [done|]. split; [|done]. unfold emitted. apply drop_all.
Qed.

Lemma unresolved_channel_noop_witness :
  let env := mkEnv 0 0 0 false true (mkClock 12 0) (fun _ => Some page_AE)
                   (fun _ => true) (fun _ => Written) true (fun _ => true) in
  news_loop plain_hash env fresh_world = fresh_world
  ∧ emitted fresh_world (news_loop plain_hash env fresh_world) = []
  ∧ file (news_loop plain_hash env fresh_world) = file fresh_world.
Proof.
  intros env. apply (unresolved_channel_noop plain_hash env fresh_world). reflexivity.
Defined.

(** C7.  A site-relative href and its resolved absolute form give the same
    item, hence the same id, wherever the anchor stands in the page; and
    the id of every fetched item is the hash of its (absolute) link alone. *)
Theorem relative_absolute_same_id (sha1_hex : string → string)
    (before after : list (string * string)) (text h : string) (limit : Z) :
  startswith "/" h = true →
  extract_items sha1_hex (before ++ (text, h) :: after) limit
    = extract_items sha1_hex (before ++ (text, SITE +:+ h) :: after) limit
  ∧ (is_news_link (SITE +:+ h) = true → text ≠ "" →
     extract_items sha1_hex [(text, h)] limit
       = [mkItem (normalize_link sha1_hex (SITE +:+ h)) text (SITE +:+ h)]
     ∧ extract_items sha1_hex [(text, SITE +:+ h)] limit
       = [mkItem (normalize_link sha1_hex (SITE +:+ h)) text (SITE +:+ h)])
  ∧ (∀ it, it ∈ extract_items sha1_hex (before ++ (text, h) :: after) limit →
           id it = normalize_link sha1_hex (link it)).
Proof.
  intros Hrel. split; [|split].
  - unfold extract_items. rewrite !collect_anchors_app.
    rewrite <- (resolve_href_relative h Hrel).
    by rewrite collect_anchors_resolved.
  - intros Hnews Htext.
    assert (extract_items sha1_hex [(text, SITE +:+ h)] limit
            = [mkItem (normalize_link sha1_hex (SITE +:+ h)) text (SITE +:+ h)]) as Habs.
    { unfold extract_items. cbn [collect_anchors]. rewrite resolve_href_site, Hnews.
      rewrite bool_decide_true by done. cbn [dedup_loop].
      rewrite decide_False by apply not_elem_of_empty.
      cbn [app length]. by destruct (_ >=? _). }
    split; [|done]. rewrite <- Habs. unfold extract_items.
    rewrite <- (resolve_href_relative h Hrel). by rewrite collect_anchors_resolved.
  - intros it. apply extract_items_id.
Qed.

Lemma relative_absolute_same_id_witness :
  extract_items plain_hash ([("A", "/News/Notice/5")] ++ ("B", "/News/Notice/4") :: []) 5
  = extract_items plain_hash
      ([("A", "/News/Notice/5")] ++ ("B", SITE +:+ "/News/Notice/4") :: []) 5.
Proof.
  apply (relative_absolute_same_id plain_hash [("A", "/News/Notice/5")] []
           "B" "/News/Notice/4" 5).
  reflexivity.
Defined.

(** * The tick cycle *)

Lemma is_hour_tick_spec (now : Clock) :
  is_hour_tick now = true ↔ minute now = 0 ∧ 9 ≤ hour now ≤ 23.
Proof.
  unfold is_hour_tick. rewrite !andb_true_iff, Z.eqb_eq, !Z.leb_le. tauto.
Qed.

Lemma is_field_boss_spec (now : Clock) :
  is_field_boss now = true
  ↔ minute now = 0 ∧ (hour now = 12 ∨ hour now = 18 ∨ hour now = 20 ∨ hour now = 22).
Proof.
  unfold is_field_boss. rewrite andb_true_iff, Z.eqb_eq, bool_decide_eq_true.
  rewrite !elem_of_cons, elem_of_nil. tauto.
Qed.

(** What one invocation sends when the channel resolves and the platform
    accepts every message. *)
Lemma tick_loop_run (env : Env) (w : World) :
  alert_channel env = true →
  (∀ t, send_ok env t = true) →
  emitted w (tick_loop env w)
  = (if is_hour_tick (clock env)
     then [EvAlert (HourTick (role_mention (HOUR_TICK_ROLE_ID env)) (clock env))] else [])
    ++ (if is_field_boss (clock env)
        then [EvAlert (FieldBoss (role_mention (FIELD_BOSS_ROLE_ID env)) (clock env))] else []).
Proof.
  intros Hch Hsend. apply emitted_app.
  unfold tick_loop, tick_loop_coro, catch, tick_loop_body, bind, send_alert, ret. rewrite Hch.
  destruct (is_hour_tick (clock env)), (is_field_boss (clock env));
    rewrite ?Hsend; cbn [snd log trace]; rewrite ?Hsend; cbn [snd log trace app];
    rewrite <- ?app_assoc, ?app_nil_r; done.
Qed.

(** C5.  With a resolvable alert channel, at local time (hour, minute): the
    hourly alert is sent iff minute = 0 and 9 ≤ hour ≤ 23; the field-boss
    alert is sent iff minute = 0 and hour is one of 12, 18, 20, 22; nothing
    else is sent; and at 12:00 both are sent, as two messages, the hourly
    one first. *)
Theorem tick_alerts (env : Env) (w : World) :
  alert_channel env = true →
  (∀ t, send_ok env t = true) →
  let now := clock env in
  let hourly := HourTick (role_mention (HOUR_TICK_ROLE_ID env)) now in
  let boss := FieldBoss (role_mention (FIELD_BOSS_ROLE_ID env)) now in
  let sent := emitted w (tick_loop env w) in
  (hourly ∈ alerts sent ↔ minute now = 0 ∧ 9 ≤ hour now ≤ 23)
  ∧ (boss ∈ alerts sent
     ↔ minute now = 0 ∧ (hour now = 12 ∨ hour now = 18 ∨ hour now = 20 ∨ hour now = 22))
  ∧ (∀ e, e ∈ sent → e = EvAlert hourly ∨ e = EvAlert boss)
  ∧ (minute now = 0 → hour now = 12 → sent = [EvAlert hourly; EvAlert boss]).
Proof.
  intros Hch Hsend now hourly boss sent.
  assert (sent = (if is_hour_tick now then [EvAlert hourly] else [])
                 ++ (if is_field_boss now then [EvAlert boss] else [])) as Hsent.
  { by apply tick_loop_run. }
  pose proof (is_hour_tick_spec now) as Hh. pose proof (is_field_boss_spec now) as Hb.
  rewrite Hsent. clear Hsent. split; [|split; [|split]].
  - rewrite <- Hh.
    destruct (is_hour_tick now), (is_field_boss now); unfold alerts; cbn;
      rewrite ?elem_of_cons, ?elem_of_nil; split; intros H;
      first [done | tauto | destruct H as [H|H]; done].
  - rewrite <- Hb.
    destruct (is_hour_tick now), (is_field_boss now); unfold alerts; cbn;
      rewrite ?elem_of_cons, ?elem_of_nil; split; intros H;
      first [done | tauto | destruct H as [H|H]; done].
  - intros e.
    destruct (is_hour_tick now), (is_field_boss now); cbn [app];
      rewrite ?elem_of_cons, ?elem_of_nil; tauto.
  - intros Hm H12.
    assert (is_hour_tick now = true) as -> by (apply Hh; lia).
    assert (is_field_boss now = true) as -> by (apply Hb; lia).
    done.
Qed.

Lemma tick_alerts_witness :
  emitted fresh_world (tick_loop (notice_env []) fresh_world)
  = [EvAlert (HourTick None (mkClock 12 0)); EvAlert (FieldBoss None (mkClock 12 0))].
Proof.
  apply (tick_alerts (notice_env []) fresh_world).
  - reflexivity.
  - intros t; reflexivity.
  - reflexivity.
  - reflexivity.
Defined.

(** * The shape of the history of a cycle *)

Lemma ids_cons it items : ids (it :: items) = {[id it]} ∪ ids items.
Proof. reflexivity. Qed.

Section Shape.

Variable env : Env.

Lemma dispatch_events_closed name label its known state :
  dispatch_events env name label its known state
  = concat (imap (item_effects env name label known state its) its).
Proof.
  revert known state. induction its as [|it rest IH]; intros known state; [done|].
  cbn [dispatch_events]. rewrite imap_cons. cbn [concat]. rewrite IH.
  unfold item_effects at 2. cbn [app take]. f_equal.
  assert (ids (it :: take 0 rest) ∪ known = {[id it]} ∪ known) as ->.
  { rewrite take_0, ids_cons. unfold ids. simpl. by rewrite union_empty_r_L. }
  f_equal. f_equal. apply imap_ext. intros i x _. unfold item_effects, compose.
  rewrite insert_insert_eq. cbn [take].
  assert (ids (take (S i) rest) ∪ ({[id it]} ∪ known)
          = ids (it :: take (S i) rest) ∪ known) as Heq.
  { rewrite ids_cons. apply set_eq. intros y. rewrite !elem_of_union. tauto. }
  by rewrite Heq.
Qed.

Lemma dispatch_events_no_sleep name label its known state :
  EvSleep ∉ dispatch_events env name label its known state.
Proof.
  revert known state. induction its as [|it rest IH]; intros known state; simpl.
  - apply not_elem_of_nil.
  - intros H. apply elem_of_cons in H as [H|H]; [done|].
    apply elem_of_cons in H as [H|H]; [done|]. by apply IH in H.
Qed.

Variable sha1_hex : string → string.

Lemma cycle_state_app gate state pre post :
  cycle_state sha1_hex env gate state (pre ++ post)
  = cycle_state sha1_hex env gate (cycle_state sha1_hex env gate state pre) post.
Proof. revert state. induction pre as [|s pre IH]; intros state; [done|]. apply IH. Qed.

Lemma cycle_events_app gate state pre post :
  cycle_events sha1_hex env gate state (pre ++ post)
  = cycle_events sha1_hex env gate state pre
    ++ cycle_events sha1_hex env gate (cycle_state sha1_hex env gate state pre) post.
Proof.
  revert state. induction pre as [|s pre IH]; intros state; [done|].
  cbn [app cycle_events cycle_state]. by rewrite IH, app_assoc.
Qed.

(** The history of a cycle around one of its sources. *)
Lemma cycle_events_split gate state pre s post :
  cycle_events sha1_hex env gate state (pre ++ s :: post)
  = cycle_events sha1_hex env gate state pre
    ++ source_events sha1_hex env gate (cycle_state sha1_hex env gate state pre) s
    ++ cycle_events sha1_hex env gate
         (cycle_state sha1_hex env gate state (pre ++ [s])) post.
Proof.
  rewrite cycle_events_app. cbn [cycle_events]. by rewrite cycle_state_app.
Qed.

Lemma split_names pre (s : Source) post :
  NoDup (map src_name (pre ++ (s :: post))) →
  (src_name s ∉ map src_name pre) ∧ (src_name s ∉ map src_name post).
Proof.
  rewrite map_app. cbn [map]. intros Hnd.
  apply NoDup_app in Hnd as (_ & Hdis & Hnd). apply NoDup_cons in Hnd as [Hpost _].
  split; [|done]. intros Hin. apply (Hdis _ Hin). apply list_elem_of_here.
Qed.

Lemma split_labels pre (s : Source) post :
  NoDup (map src_label (pre ++ (s :: post))) →
  (src_label s ∉ map src_label pre) ∧ (src_label s ∉ map src_label post).
Proof.
  rewrite map_app. cbn [map]. intros Hnd.
  apply NoDup_app in Hnd as (_ & Hdis & Hnd). apply NoDup_cons in Hnd as [Hpost _].
  split; [|done]. intros Hin. apply (Hdis _ Hin). apply list_elem_of_here.
Qed.

End Shape.

(** The history of an invocation around one registered source: what the
    earlier sources did, the source's own part, what the later ones did. *)
Lemma news_loop_around_source (sha1_hex : string → string) (env : Env) (w : World)
    (pre : list Source) (s : Source) (post : list Source) :
  notice_channel env = true →
  (bootstrap_done w = true → ∀ t, send_ok env t = true) →
  (∀ t, write_result env t = Written) →
  NEWS_SOURCES = pre ++ s :: post →
  let gate := bootstrap_done w in
  let state := cycle_state sha1_hex env gate (stored w) pre in
  let t_pre := EvLoad :: cycle_events sha1_hex env gate (stored w) pre in
  let t_post := cycle_events sha1_hex env gate
                  (cycle_state sha1_hex env gate (stored w) (pre ++ [s])) post in
  emitted w (news_loop sha1_hex env w)
    = t_pre ++ source_events sha1_hex env gate state s ++ t_post
  ∧ (∀ n, n ∉ map src_name pre → state !! n = stored w !! n)
  ∧ announced (src_label s) t_pre = []
  ∧ announced (src_label s) t_post = [].
Proof.
  intros Hch Hsend Hwr Hsplit gate state t_pre t_post.
  destruct (news_loop_run sha1_hex env Hwr w Hch Hsend) as (_ & _ & Htr).
  pose proof NEWS_SOURCES_labels as Hlab. rewrite Hsplit in Hlab.
  apply split_labels in Hlab as [Hl1 Hl2].
  split; [|split; [|split]].
  - apply emitted_app. rewrite Htr, Hsplit, cycle_events_split. done.
  - intros n Hn. by apply cycle_state_other.
  - unfold t_pre. change (EvLoad :: ?l) with ([EvLoad] ++ l).
    rewrite announced_app. by rewrite cycle_events_announced_other.
  - by apply cycle_events_announced_other.
Qed.

Lemma dispatch_events_length env name label its known state :
  length (dispatch_events env name label its known state) = (2 * length its)%nat.
Proof.
  revert known state. induction its as [|it rest IH]; intros known state; [done|].
  cbn [dispatch_events length]. rewrite IH. lia.
Qed.

(** The runs of the cycle when the deliveries asked at histories shorter
    than [N] succeed: what happens up to a history of length [N]. *)
Section Short.

Variable sha1_hex : string → string.
Variable env : Env.
Variable N : nat.
Hypothesis write_always : ∀ t, write_result env t = Written.
Hypothesis send_short : ∀ t, (length t < N)%nat → send_ok env t = true.

Lemma announce_loop_prefix name label done rest known state w :
  (length (trace w) + 2 * length done ≤ N)%nat →
  announce_loop env name label (done ++ rest) known state w
  = announce_loop env name label rest (ids done ∪ known)
      (dispatch_state name done known state)
      (mkWorld (match done with [] => file w | _ => Some (dispatch_state name done known state) end)
               (bootstrap_done w)
               (trace w ++ dispatch_events env name label done known state)).
Proof.
  revert known state w. induction done as [|it done IH]; intros known state w Hlen.
  - cbn [app dispatch_state dispatch_events]. unfold ids. cbn [map list_to_set].
    rewrite union_empty_l_L. by rewrite world_eta.
  - cbn [app announce_loop length] in *.
    unfold bind at 1. unfold announce_news_item. rewrite send_short by lia.
    unfold bind at 1. unfold save_state. cbn [log trace]. rewrite write_always.
    rewrite IH by (cbn [trace]; rewrite !length_app; cbn [length]; lia).
    cbn [dispatch_state dispatch_events trace file bootstrap_done].
    assert (ids done ∪ ({[id it]} ∪ known) = ids (it :: done) ∪ known) as ->.
    { rewrite ids_cons. apply set_eq. intros y. rewrite !elem_of_union. tauto. }
    f_equal. f_equal; [by destruct done|]. by rewrite <- !app_assoc.
Qed.

Lemma announce_loop_run_short name label its known state w :
  (length (trace w) + 2 * length its ≤ N)%nat →
  announce_loop env name label its known state w
  = (Return (dispatch_state name its known state),
     mkWorld (match its with [] => file w | _ => Some (dispatch_state name its known state) end)
             (bootstrap_done w)
             (trace w ++ dispatch_events env name label its known state)).
Proof.
  intros Hlen. rewrite <- (app_nil_r its) at 1. by rewrite announce_loop_prefix.
Qed.

Lemma poll_source_run_short state s w :
  stored w = state →
  (length (trace w) + length (source_events sha1_hex env (bootstrap_done w) state s) ≤ N)%nat →
  ∃ w', poll_source sha1_hex env state s w
          = (Return (source_state sha1_hex env (bootstrap_done w) state s), w')
        ∧ stored w' = source_state sha1_hex env (bootstrap_done w) state s
        ∧ bootstrap_done w' = bootstrap_done w
        ∧ trace w' = trace w ++ source_events sha1_hex env (bootstrap_done w) state s.
Proof.
  intros Hst Hlen. rewrite poll_source_unfold. cbv zeta.
  unfold source_state, source_events in *.
  destruct (fetched_items sha1_hex env s) as [|it items] eqn:Hf.
  { eexists; split; [reflexivity|]. cbn [trace bootstrap_done]. by rewrite app_nil_r. }
  destruct (bootstrap_done w) eqn:Hg.
  - rewrite length_app, length_app, dispatch_events_length in Hlen.
    set (its := reverse (new_items sha1_hex env state s)) in *.
    unfold bind at 1.
    rewrite announce_loop_run_short by (cbn [trace]; rewrite length_app; lia).
    unfold ret, bind, sleep. cbn [log trace file bootstrap_done].
    eexists; split; [reflexivity|]. cbn [log trace bootstrap_done file].
    split; [|split; [done|by rewrite <- !app_assoc]].
    unfold stored. cbn [log file]. destruct its; [|done]. apply Hst.
  - unfold bind, save_state, ret. cbn [trace bootstrap_done]. rewrite write_always.
    eexists; split; [reflexivity|]. cbn [trace bootstrap_done].
    split; [done|]. split; [done|]. by rewrite <- !app_assoc.
Qed.

Lemma for_sources_run_short srcs state w :
  stored w = state →
  (length (trace w) + length (cycle_events sha1_hex env (bootstrap_done w) state srcs) ≤ N)%nat →
  ∃ w', for_sources sha1_hex env srcs state w
          = (Return (cycle_state sha1_hex env (bootstrap_done w) state srcs), w')
        ∧ stored w' = cycle_state sha1_hex env (bootstrap_done w) state srcs
        ∧ bootstrap_done w' = bootstrap_done w
        ∧ trace w' = trace w ++ cycle_events sha1_hex env (bootstrap_done w) state srcs.
Proof.
  revert state w. induction srcs as [|s rest IH]; intros state w Hst Hlen.
  - exists w. cbn. by rewrite app_nil_r.
  - cbn [for_sources cycle_state cycle_events] in *. rewrite length_app in Hlen.
    destruct (poll_source_run_short state s w Hst) as (w1 & Hrun & Hst1 & Hg1 & Htr1); [lia|].
    unfold bind. rewrite Hrun.
    destruct (IH _ w1 Hst1) as (w2 & Hrun2 & Hst2 & Hg2 & Htr2).
    { rewrite Hg1, Htr1, length_app. lia. }
    rewrite Hg1 in *. exists w2. rewrite Hrun2, Htr2, Htr1, <- app_assoc. done.
Qed.

End Short.

(** An invocation in which the platform refuses the delivery of one item:
    the [try] block ends there, with the items before it dispatched and
    persisted. *)
Lemma refusing_short (env : Env) (h t : list Event) :
  (∀ t, send_ok env t = true) → (length t < length h)%nat →
  send_ok (refusing env h) t = true.
Proof.
  intros Hs Hl. cbn [refusing send_ok]. rewrite decide_False; [apply Hs|].
  intros ->. lia.
Qed.

Lemma for_sources_app sha1_hex env pre post state w :
  for_sources sha1_hex env (pre ++ post) state w
  = bind (for_sources sha1_hex env pre state) (for_sources sha1_hex env post) w.
Proof.
  revert state w. induction pre as [|s pre IH]; intros state w; [reflexivity|].
  cbn [app for_sources]. unfold bind.
  destruct (poll_source sha1_hex env state s w) as [[st|] w1]; [|done].
  by rewrite IH.
Qed.

Lemma body_interrupted sha1_hex (env : Env) (w : World)
    (pre : list Source) (s : Source) (post : list Source) (done : list Item) (it : Item)
    (rest : list Item) :
  notice_channel env = true →
  (∀ t, send_ok env t = true) →
  (∀ t, write_result env t = Written) →
  bootstrap_done w = true →
  NEWS_SOURCES = pre ++ s :: post →
  let state := cycle_state sha1_hex env true (stored w) pre in
  let known := known_ids state (src_name s) in
  reverse (new_items sha1_hex env state s) = done ++ it :: rest →
  let d := EvLoad :: cycle_events sha1_hex env true (stored w) pre ++ fetch_events env s
           ++ dispatch_events env (src_name s) (src_label s) done known state in
  ∃ w_k, news_loop_body sha1_hex (refusing env (trace w ++ d)) w = (Raised, w_k)
         ∧ stored w_k = dispatch_state (src_name s) done known state
         ∧ trace w_k = trace w ++ d.
Proof.
  intros Hch Hsend Hwr Hg Hsplit state known Horder d.
  set (h := trace w ++ d). set (env' := refusing env h).
  assert (∀ t, write_result env' t = Written) as Hwr' by exact Hwr.
  assert (∀ t, (length t < length h)%nat → send_ok env' t = true) as Hshort.
  { intros t. by apply refusing_short. }
  unfold news_loop_body. change (notice_channel env') with (notice_channel env). rewrite Hch.
  unfold bind at 1. unfold load_state. fold (stored w).
  unfold bind at 1. rewrite Hsplit, for_sources_app. unfold bind at 1.
  destruct (for_sources_run_short sha1_hex env' (length h) Hwr' Hshort pre (stored w)
              (log EvLoad w) eq_refl) as (w1 & Hrun1 & Hst1 & Hg1 & Htr1).
  { cbn [log trace bootstrap_done]. rewrite Hg. unfold h, d.
    change (cycle_events sha1_hex env' true (stored w) pre)
      with (cycle_events sha1_hex env true (stored w) pre).
    rewrite !length_app. cbn [length]. rewrite !length_app. lia. }
  cbn [log bootstrap_done trace] in Hrun1, Hst1, Hg1, Htr1. rewrite Hg in *.
  change (cycle_state sha1_hex env' true (stored w) pre) with state in Hrun1, Hst1.
  change (cycle_events sha1_hex env' true (stored w) pre)
    with (cycle_events sha1_hex env true (stored w) pre) in Htr1.
  rewrite Hrun1. cbn [for_sources]. unfold bind at 1. rewrite poll_source_unfold. cbv zeta.
  change (fetched_items sha1_hex env' s) with (fetched_items sha1_hex env s).
  change (new_items sha1_hex env' state s) with (new_items sha1_hex env state s).
  change (fetch_events env' s) with (fetch_events env s).
  destruct (fetched_items sha1_hex env s) as [|it0 items] eqn:Hf.
  { exfalso. unfold new_items in Horder. rewrite Hf in Horder.
    by destruct done. }
  rewrite Hg1, Horder. fold known. unfold bind at 1.
  rewrite (announce_loop_prefix sha1_hex env' (length h) Hwr' Hshort).
  2:{ cbn [trace]. rewrite Htr1. unfold h, d. rewrite <- !app_assoc, !length_app. cbn [length].
      rewrite !length_app, dispatch_events_length. lia. }
  cbn [announce_loop]. unfold bind at 1. unfold announce_news_item. cbn [trace].
  change (dispatch_events env' (src_name s) (src_label s) done known state)
    with (dispatch_events env (src_name s) (src_label s) done known state).
  assert ((trace w1 ++ fetch_events env s)
          ++ dispatch_events env (src_name s) (src_label s) done known state = h) as Hh.
  { rewrite Htr1. unfold h, d. by rewrite <- !app_assoc. }
  rewrite Hh. assert (send_ok env' h = false) as ->.
  { cbn [env' refusing send_ok]. by rewrite decide_True. }
  eexists. split; [reflexivity|]. split; [|done].
  unfold stored. cbn [file]. destruct done; [apply Hst1|done].
Qed.

Lemma effects_of_prefix (env : Env) (name label : string) (known : gset string)
    (state : State) (done rest : list Item) :
  dispatch_events env name label done known state
  = concat (imap (fun i it =>
                    [EvAnnounce (mention env) label it;
                     EvSave (<[name := elements (ids (take (S i) (done ++ rest)) ∪ known)]>
                               state)])
                 done).
Proof.
  rewrite dispatch_events_closed. f_equal. apply imap_ext. intros i x Hi.
  unfold item_effects. apply lookup_lt_Some in Hi.
  by rewrite take_app_le by lia.
Qed.

(** C3.  With the gate true, the new items of a source are dispatched in
    reverse fetch order, and each item has its notification sent, then its
    id added to the known set, then the whole state persisted, before the
    next item is touched.  The part of the history that belongs to the
    source is its fetch followed, item by item, by the notification and by
    the rewrite of the state file.  The document written is the whole
    state: the entry of the source holds exactly the ids known before and
    those of the items dispatched so far, the entries of the sources polled
    earlier are those the invocation leaves, and every other entry is as
    the invocation found it; the entries of names that are no sources are
    never changed.  And the file holds that document before the
    next item is touched: when the platform refuses the delivery of an
    item, the invocation ends with the items before it announced and with
    exactly their ids added to the stored state. *)
Theorem dispatch_order (sha1_hex : string → string) (env : Env) (w : World)
    (pre : list Source) (s : Source) (post : list Source) :
  notice_channel env = true →
  (∀ t, send_ok env t = true) →
  (∀ t, write_result env t = Written) →
  bootstrap_done w = true →
  NEWS_SOURCES = pre ++ s :: post →
  let known := known_ids (stored w) (src_name s) in
  let order := reverse (filter (fun it => id it ∉ known) (fetched_items sha1_hex env s)) in
  let w' := news_loop sha1_hex env w in
  ∃ (state : State) (t_pre t_post : list Event),
    let saved := fun k => <[src_name s := elements (ids (take k order) ∪ known)]> state in
    let effects := fun its =>
      concat (imap (fun i it => [EvAnnounce (mention env) (src_label s) it;
                                 EvSave (saved (S i))]) its) in
    emitted w w' = t_pre ++ fetch_events env s ++ effects order ++ t_post
    ∧ announced (src_label s) t_pre = []
    ∧ announced (src_label s) t_post = []
    ∧ (∀ n, n ∉ map src_name pre → state !! n = stored w !! n)
    ∧ (∀ n, n ∈ map src_name pre → state !! n = stored w' !! n)
    ∧ (order ≠ [] → stored w' !! src_name s = Some (elements (ids order ∪ known)))
    ∧ (∀ n, n ∉ map src_name NEWS_SOURCES → stored w' !! n = stored w !! n)
    ∧ (∀ done it rest, order = done ++ it :: rest →
         let h := trace w ++ t_pre ++ fetch_events env s ++ effects done in
         let w_k := news_loop sha1_hex (refusing env h) w in
         emitted w w_k
           = t_pre ++ fetch_events env s ++ effects done
             ++ report_events env "news_loop 에러" h
         ∧ stored w_k = match done with [] => state | _ => saved (length done) end).
Proof.
  intros Hch Hsend Hwr Hg Hsplit known order w'.
  destruct (news_loop_around_source sha1_hex env w pre s post Hch (fun _ => Hsend) Hwr Hsplit)
    as (Hem & Hstate & Hpre & Hpost).
  destruct (news_loop_run sha1_hex env Hwr w Hch (fun _ => Hsend)) as (Hst' & _ & _).
  fold w' in Hem, Hst'.
  pose proof NEWS_SOURCES_names as Hnames. rewrite Hsplit in Hnames.
  pose proof (split_names _ _ _ Hnames) as [Hn1 Hn2]. pose proof (Hstate _ Hn1) as Hentry.
  rewrite Hg in *.
  set (state := cycle_state sha1_hex env true (stored w) pre) in *.
  set (t_post := cycle_events sha1_hex env true _ post) in *.
  assert (known_ids state (src_name s) = known) as Hknown.
  { unfold known, known_ids. by rewrite Hentry. }
  assert (reverse (new_items sha1_hex env state s) = order) as Horder.
  { unfold new_items. by rewrite Hknown. }
  exists state, (EvLoad :: cycle_events sha1_hex env true (stored w) pre),
    ((match fetched_items sha1_hex env s with [] => [] | _ => [EvSleep] end) ++ t_post).
  cbv zeta. split; [|split; [done|split; [|split; [done|split; [|split; [|split]]]]]].
  - rewrite Hem. f_equal. unfold source_events. rewrite Horder, Hknown.
    rewrite <- !app_assoc. f_equal.
    destruct (fetched_items sha1_hex env s) as [|it items] eqn:Hf.
    + done.
    + rewrite dispatch_events_closed. unfold item_effects. by rewrite <- app_assoc.
  - rewrite announced_app, Hpost. by destruct (fetched_items sha1_hex env s).
  - intros n Hn. rewrite Hst', Hsplit, cycle_state_app. fold state.
    symmetry. apply cycle_state_other. intros Hin. cbn [map] in Hin.
    rewrite map_app in Hnames. apply NoDup_app in Hnames as (_ & Hdis & _).
    by apply (Hdis n).
  - intros Hne. rewrite Hst'.
    rewrite (cycle_state_entry sha1_hex env true (stored w) NEWS_SOURCES s NEWS_SOURCES_names).
    2:{ rewrite Hsplit. apply elem_of_app. right. apply list_elem_of_here. }
    unfold entry_step. fold known.
    destruct (fetched_items sha1_hex env s) as [|it items] eqn:Hf; [done|].
    fold (ids (it :: items)).
    destruct (filter _ (it :: items)) as [|n new] eqn:Hnew; [done|].
    unfold order. by rewrite ids_reverse.
  - intros n Hn. rewrite Hst'. by apply cycle_state_other.
  - intros done it rest Hdone.
    destruct (body_interrupted sha1_hex env w pre s post done it rest Hch Hsend Hwr Hg Hsplit)
      as (w_k & Hbody & Hstored & Htrace).
    { change (reverse (new_items sha1_hex env state s) = done ++ it :: rest).
      by rewrite Horder. }
    fold state in Hbody, Hstored, Htrace. rewrite Hknown in Hbody, Hstored, Htrace.
    rewrite (effects_of_prefix env _ _ _ _ done (it :: rest)), <- Hdone in Hbody, Htrace.
    cbn [app] in *.
    set (h := trace w ++ EvLoad :: cycle_events sha1_hex env true (stored w) pre
              ++ fetch_events env s ++ _) in *.
    unfold news_loop, news_loop_coro, catch. rewrite Hbody.
    split.
    + apply emitted_app. unfold report_error, report_events.
      change (log_channel (refusing env h)) with (log_channel env).
      change (log_send_ok (refusing env h)) with (log_send_ok env).
      rewrite Htrace. fold h.
      destruct (log_channel env); [destruct (log_send_ok env h)|];
        cbn [snd log trace andb negb]; rewrite Htrace; fold h; unfold h;
        rewrite <- ?app_assoc; cbn [app]; rewrite <- ?app_assoc; by rewrite ?app_nil_r.
    + assert (stored (report_error (refusing env h) "news_loop 에러" w_k).2 = stored w_k) as ->.
      { unfold report_error.
        by destruct (log_channel _); [destruct (log_send_ok _ _)|]. }
      rewrite Hstored, (dispatch_state_closed sha1_hex). destruct done as [|it' done']; [done|].
      rewrite Hdone. by rewrite take_app_length.
Qed.

Lemma dispatch_order_witness :
  let env := two_page_env page_AE page_UV in
  let w := open_world in
  let pre := [notice_source] in
  let s := update_source in
  let known := known_ids (stored w) (src_name s) in
  let order := reverse (filter (fun it => id it ∉ known) (fetched_items plain_hash env s)) in
  let w' := news_loop plain_hash env w in
  ∃ (state : State) (t_pre t_post : list Event),
    let saved := fun k => <[src_name s := elements (ids (take k order) ∪ known)]> state in
    let effects := fun its =>
      concat (imap (fun i it => [EvAnnounce (mention env) (src_label s) it;
                                 EvSave (saved (S i))]) its) in
    emitted w w' = t_pre ++ fetch_events env s ++ effects order ++ t_post
    ∧ announced (src_label s) t_pre = []
    ∧ announced (src_label s) t_post = []
    ∧ (∀ n, n ∉ map src_name pre → state !! n = stored w !! n)
    ∧ (∀ n, n ∈ map src_name pre → state !! n = stored w' !! n)
    ∧ (order ≠ [] → stored w' !! src_name s = Some (elements (ids order ∪ known)))
    ∧ (∀ n, n ∉ map src_name NEWS_SOURCES → stored w' !! n = stored w !! n)
    ∧ (∀ done it rest, order = done ++ it :: rest →
         let h := trace w ++ t_pre ++ fetch_events env s ++ effects done in
         let w_k := news_loop plain_hash (refusing env h) w in
         emitted w w_k
           = t_pre ++ fetch_events env s ++ effects done
             ++ report_events env "news_loop 에러" h
         ∧ stored w_k = match done with [] => state | _ => saved (length done) end).
Proof.
  intros env w pre s.
  apply (dispatch_order plain_hash env w pre s (drop 2 NEWS_SOURCES)).
  - reflexivity.
  - intros t; reflexivity.
  - intros t; reflexivity.
  - reflexivity.
  - reflexivity.
Defined.

(** * The delay of the poll cycle *)

(** C8, as stated, fails: with the gate true and five new items on the
    notice page, the two oldest are announced one after the other with
    only the rewrite of the state file between them. *)
Lemma delay_between_dispatches_fails :
  bootstrap_done open_world = true
  ∧ length (new_items plain_hash (notice_env page_AE) (stored open_world) notice_source) = 5%nat
  ∧ ¬ delay_between_dispatches "📣 공지"
        (emitted open_world (news_loop plain_hash (notice_env page_AE) open_world)).
Proof.
  split; [reflexivity|]. split; [by vm_compute|].
  intros Hdelay.
  set (tr := emitted open_world (news_loop plain_hash (notice_env page_AE) open_world)) in *.
  assert (EvSleep ∈ take 1 (drop 3 tr)) as Hin.
  { apply (Hdelay (take 2 tr) None
             (mkItem (SITE +:+ "/News/Notice/1") "E" (SITE +:+ "/News/Notice/1"))
             (take 1 (drop 3 tr)) None
             (mkItem (SITE +:+ "/News/Notice/2") "D" (SITE +:+ "/News/Notice/2"))
             (drop 5 tr)).
    - by vm_compute.
    - by vm_compute. }
  revert Hin. apply (bool_decide_unpack _). by vm_compute.
Qed.

(** C8, amended.  With the gate true, a source whose fetch is not empty is
    followed by one delay: it comes after the last of the source's
    dispatches and before the next source is fetched (or the cycle ends),
    and no delay separates two dispatches of the source. *)
Theorem delay_after_source (sha1_hex : string → string) (env : Env) (w : World)
    (pre : list Source) (s : Source) (post : list Source) :
  notice_channel env = true →
  (∀ t, send_ok env t = true) →
  (∀ t, write_result env t = Written) →
  bootstrap_done w = true →
  NEWS_SOURCES = pre ++ s :: post →
  fetched_items sha1_hex env s ≠ [] →
  ∃ (t_pre body t_post : list Event),
    emitted w (news_loop sha1_hex env w)
      = t_pre ++ fetch_events env s ++ body ++ EvSleep :: t_post
    ∧ (EvSleep ∉ body)
    ∧ announced (src_label s) body
      = reverse (filter (fun it => id it ∉ known_ids (stored w) (src_name s))
                        (fetched_items sha1_hex env s))
    ∧ announced (src_label s) t_pre = []
    ∧ announced (src_label s) t_post = []
    ∧ match post with
      | [] => t_post = []
      | s' :: _ => ∃ rest, t_post = EvFetch (src_name s') (src_url s') :: rest
      end.
Proof.
  intros Hch Hsend Hwr Hg Hsplit Hitems.
  destruct (news_loop_around_source sha1_hex env w pre s post Hch (fun _ => Hsend) Hwr Hsplit)
    as (Hem & Hstate & Hpre & Hpost).
  pose proof NEWS_SOURCES_names as Hnames. rewrite Hsplit in Hnames.
  apply split_names in Hnames as [Hn1 _]. specialize (Hstate _ Hn1).
  rewrite Hg in *.
  set (state := cycle_state sha1_hex env true (stored w) pre) in *.
  set (t_post := cycle_events sha1_hex env true _ post) in *.
  exists (EvLoad :: cycle_events sha1_hex env true (stored w) pre),
    (dispatch_events env (src_name s) (src_label s)
       (reverse (new_items sha1_hex env state s)) (known_ids state (src_name s)) state),
    t_post.
  split; [|split; [|split; [|split; [done|split; [done|]]]]].
  - rewrite Hem. f_equal. unfold source_events.
    destruct (fetched_items sha1_hex env s); [done|].
    rewrite <- !app_assoc. done.
  - apply dispatch_events_no_sleep.
  - rewrite dispatch_events_announced, decide_True by done.
    unfold new_items, known_ids. by rewrite Hstate.
  - unfold t_post. destruct post as [|s' post']; [done|].
    cbn [cycle_events]. unfold source_events, fetch_events.
    rewrite <- app_assoc. cbn [app]. eauto.
Qed.

Lemma delay_after_source_witness :
  ∃ (t_pre body t_post : list Event),
    emitted open_world (news_loop plain_hash (notice_env page_AE) open_world)
      = t_pre ++ fetch_events (notice_env page_AE) notice_source ++ body ++ EvSleep :: t_post
    ∧ (EvSleep ∉ body)
    ∧ announced "📣 공지" body
      = reverse (filter (fun it => id it ∉ known_ids (stored open_world) "공지사항")
                        (fetched_items plain_hash (notice_env page_AE) notice_source))
    ∧ announced "📣 공지" t_pre = []
    ∧ announced "📣 공지" t_post = []
    ∧ ∃ rest, t_post = EvFetch "업데이트" "https://mabinogimobile.nexon.com/News/Update" :: rest.
Proof.
  apply (delay_after_source plain_hash (notice_env page_AE) open_world
           [] notice_source (tail NEWS_SOURCES)).
  - reflexivity.
  - intros t; reflexivity.
  - intros t; reflexivity.
  - reflexivity.
  - reflexivity.
  - by vm_compute.
Defined.

(** * Several cycles in a row *)

Lemma announcements_of_app label x t1 t2 :
  announcements_of label x (t1 ++ t2)
  = announcements_of label x t1 ++ announcements_of label x t2.
Proof. unfold announcements_of. by rewrite announced_app, filter_app. Qed.

Lemma filter_id_none (x : string) (l : list Item) :
  (∀ it, it ∈ l → id it ≠ x) → filter (fun it => id it = x) l = [].
Proof.
  induction l as [|a l IH]; intros H; [done|].
  rewrite filter_cons_False by (apply H; apply list_elem_of_here).
  apply IH. intros it Hit. apply H. by apply list_elem_of_further.
Qed.

Lemma filter_id_unique (l : list Item) (it : Item) :
  NoDup (map id l) → it ∈ l → filter (fun i => id i = id it) l = [it].
Proof.
  induction l as [|a l IH]; intros Hnd Hin; [by apply elem_of_nil in Hin|].
  cbn [map] in Hnd. apply NoDup_cons in Hnd as [Ha Hnd].
  apply elem_of_cons in Hin as [->|Hin].
  - rewrite filter_cons_True by done. f_equal. apply filter_id_none.
    intros i Hi Heq. apply Ha. rewrite <- Heq. by apply list_elem_of_fmap_2.
  - rewrite filter_cons_False; [by apply IH|].
    intros Heq. apply Ha. rewrite Heq. by apply list_elem_of_fmap_2.
Qed.

Lemma new_items_NoDup sha1_hex env state s :
  NoDup (map id (reverse (new_items sha1_hex env state s))).
Proof.
  change (map id) with (fmap (M:=list) id).
  rewrite fmap_reverse, reverse_Permutation.
  unfold new_items. eapply sublist_NoDup; [|apply fmap_sublist, sublist_filter].
  unfold fetched_items. destruct (http_get env (src_url s)); [|constructor].
  apply extract_items_NoDup.
Qed.

Lemma elem_of_ids (x : string) (items : list Item) :
  x ∈ ids items ↔ ∃ it, it ∈ items ∧ id it = x.
Proof.
  unfold ids. rewrite elem_of_list_to_set.
  change (map id) with (fmap (M:=list) id). rewrite list_elem_of_fmap.
  split; intros (it & H1 & H2); exists it; done.
Qed.

(** The notifications for [x] among the new items of a cycle. *)
Lemma new_items_announcements sha1_hex env state s x :
  let new := reverse (new_items sha1_hex env state s) in
  (x ∈ known_ids state (src_name s) → filter (fun it => id it = x) new = [])
  ∧ (x ∉ ids (fetched_items sha1_hex env s) → filter (fun it => id it = x) new = [])
  ∧ (x ∉ known_ids state (src_name s) → x ∈ ids (fetched_items sha1_hex env s) →
     ∃ it, it ∈ fetched_items sha1_hex env s ∧ id it = x
           ∧ filter (fun it => id it = x) new = [it]).
Proof.
  intros new. split; [|split].
  - intros Hk. apply filter_id_none. intros it Hit Heq.
    apply elem_of_reverse, list_elem_of_filter in Hit as [Hnk _]. apply Hnk. by rewrite Heq.
  - intros Hx. apply filter_id_none. intros it Hit Heq.
    apply elem_of_reverse, list_elem_of_filter in Hit as [_ Hin].
    apply Hx. apply elem_of_ids. eauto.
  - intros Hk Hx. apply elem_of_ids in Hx as (it & Hin & Hid). exists it.
    split; [done|]. split; [done|]. subst x.
    apply filter_id_unique; [apply new_items_NoDup|].
    apply elem_of_reverse, list_elem_of_filter. done.
Qed.

Lemma emitted_refl w : emitted w w = [].
Proof. unfold emitted. apply drop_all. Qed.

Lemma emitted_trans w w1 w2 :
  trace w1 = trace w ++ emitted w w1 →
  trace w2 = trace w1 ++ emitted w1 w2 →
  trace w2 = trace w ++ emitted w w2
  ∧ emitted w w2 = emitted w w1 ++ emitted w1 w2.
Proof.
  intros H1 H2. rewrite H1, <- app_assoc in H2.
  rewrite (emitted_app _ _ _ H2). done.
Qed.

Section Cycles.

Variable sha1_hex : string → string.

Lemma news_loop_grows env w :
  reliable env →
  trace (news_loop sha1_hex env w) = trace w ++ emitted w (news_loop sha1_hex env w)
  ∧ bootstrap_done (news_loop sha1_hex env w) = bootstrap_done w.
Proof.
  intros [Hsend Hwr]. destruct (notice_channel env) eqn:Hch.
  - destruct (news_loop_run sha1_hex env Hwr w Hch (fun _ => Hsend)) as (_ & Hg & Htr).
    by rewrite (emitted_app _ _ _ Htr).
  - rewrite (news_loop_unresolved sha1_hex env w Hch).
    by rewrite emitted_refl, app_nil_r.
Qed.

Lemma run_cycles_grows envs w :
  Forall reliable envs →
  trace (run_cycles sha1_hex envs w) = trace w ++ emitted w (run_cycles sha1_hex envs w)
  ∧ bootstrap_done (run_cycles sha1_hex envs w) = bootstrap_done w.
Proof.
  revert w. induction envs as [|env envs IH]; intros w Hrel; cbn [run_cycles].
  - by rewrite emitted_refl, app_nil_r.
  - apply Forall_cons in Hrel as [Hrel Hrels].
    destruct (news_loop_grows env w Hrel) as [H1 Hg1].
    destruct (IH (news_loop sha1_hex env w) Hrels) as [H2 Hg2].
    destruct (emitted_trans _ _ _ H1 H2) as [H3 _]. split; [done|congruence].
Qed.

(** One cycle with the gate open, seen from one id of one source. *)
Lemma cycle_for_id env w s x :
  reliable env → bootstrap_done w = true → s ∈ NEWS_SOURCES →
  let w' := news_loop sha1_hex env w in
  let K := known_ids (stored w) (src_name s) in
  let K' := known_ids (stored w') (src_name s) in
  (x ∈ K → x ∈ K' ∧ announcements_of (src_label s) x (emitted w w') = [])
  ∧ (x ∉ K → ¬ appears sha1_hex env s x →
     (x ∉ K') ∧ announcements_of (src_label s) x (emitted w w') = [])
  ∧ (x ∉ K → appears sha1_hex env s x →
     x ∈ K' ∧ ∃ it, it ∈ fetched_items sha1_hex env s ∧ id it = x
                    ∧ announcements_of (src_label s) x (emitted w w') = [it]).
Proof.
  intros [Hsend Hwr] Hg Hs w' K K'. unfold appears.
  destruct (notice_channel env) eqn:Hch.
  - assert (K' = K ∪ ids (fetched_items sha1_hex env s)) as HK'.
    { by apply news_loop_known. }
    destruct (news_loop_source sha1_hex env Hch Hwr w s (fun _ => Hsend) Hs)
      as (_ & Hann & _).
    rewrite Hg in Hann. unfold announcements_of. fold w' in Hann. rewrite Hann.
    destruct (new_items_announcements sha1_hex env (stored w) s x) as (Hin & Hout & Hnew).
    rewrite HK'. split; [|split].
    + intros Hk. split; [by apply elem_of_union_l|by apply Hin].
    + intros Hk Hx. assert (x ∉ ids (fetched_items sha1_hex env s)) as Hx' by tauto.
      split; [|by apply Hout]. rewrite elem_of_union. tauto.
    + intros Hk [_ Hx]. split; [by apply elem_of_union_r|by apply Hnew].
  - assert (w' = w) as Hw by (by apply news_loop_unresolved).
    unfold K'. rewrite Hw, emitted_refl. split; [|split]; try done.
    intros _ [Hf _]. done.
Qed.

(** Once known, an id stays known and is not announced again. *)
Lemma run_cycles_known envs w s x :
  Forall reliable envs → bootstrap_done w = true → s ∈ NEWS_SOURCES →
  x ∈ known_ids (stored w) (src_name s) →
  x ∈ known_ids (stored (run_cycles sha1_hex envs w)) (src_name s)
  ∧ announcements_of (src_label s) x (emitted w (run_cycles sha1_hex envs w)) = [].
Proof.
  revert w. induction envs as [|env envs IH]; intros w Hrel Hg Hs Hk; cbn [run_cycles].
  - by rewrite emitted_refl.
  - apply Forall_cons in Hrel as [Hrel Hrels].
    destruct (cycle_for_id env w s x Hrel Hg Hs) as (Hknown & _ & _).
    destruct (Hknown Hk) as [Hk1 Ha1].
    destruct (news_loop_grows env w Hrel) as [H1 Hg1].
    destruct (IH (news_loop sha1_hex env w) Hrels) as [Hk2 Ha2]; [congruence|done|done|].
    destruct (run_cycles_grows envs (news_loop sha1_hex env w) Hrels) as [H2 _].
    destruct (emitted_trans _ _ _ H1 H2) as [_ ->].
    by rewrite announcements_of_app, Ha1, Ha2.
Qed.

(** While it does not appear, an unknown id stays unknown and is not
    announced. *)
Lemma run_cycles_absent envs w s x :
  Forall reliable envs → bootstrap_done w = true → s ∈ NEWS_SOURCES →
  x ∉ known_ids (stored w) (src_name s) →
  Forall (fun env => ¬ appears sha1_hex env s x) envs →
  (x ∉ known_ids (stored (run_cycles sha1_hex envs w)) (src_name s))
  ∧ announcements_of (src_label s) x (emitted w (run_cycles sha1_hex envs w)) = [].
Proof.
  revert w. induction envs as [|env envs IH]; intros w Hrel Hg Hs Hk Habs; cbn [run_cycles].
  - by rewrite emitted_refl.
  - apply Forall_cons in Hrel as [Hrel Hrels]. apply Forall_cons in Habs as [Hab Habs].
    destruct (cycle_for_id env w s x Hrel Hg Hs) as (_ & Habsent & _).
    destruct (Habsent Hk Hab) as [Hk1 Ha1].
    destruct (news_loop_grows env w Hrel) as [H1 Hg1].
    destruct (IH (news_loop sha1_hex env w) Hrels) as [Hk2 Ha2]; [congruence|done|done|done|].
    destruct (run_cycles_grows envs (news_loop sha1_hex env w) Hrels) as [H2 _].
    destruct (emitted_trans _ _ _ H1 H2) as [_ ->].
    by rewrite announcements_of_app, Ha1, Ha2.
Qed.

End Cycles.

(** C2.  With the gate true and neither a delivery nor a write failing, an
    item whose id is absent from the persisted state of its source is not
    announced while it does not appear in a fetched batch, is announced
    exactly once in the first cycle in which it appears, and is never
    announced in the cycles after that one, whether it appears in them or
    not. *)
Theorem announced_exactly_once (sha1_hex : string → string)
    (before : list Env) (env : Env) (after : list Env)
    (w : World) (s : Source) (x : string) :
  s ∈ NEWS_SOURCES →
  bootstrap_done w = true →
  Forall reliable (before ++ env :: after) →
  x ∉ known_ids (stored w) (src_name s) →
  Forall (fun e => ¬ appears sha1_hex e s x) before →
  appears sha1_hex env s x →
  let w1 := run_cycles sha1_hex before w in
  let w2 := news_loop sha1_hex env w1 in
  let w3 := run_cycles sha1_hex after w2 in
  w3 = run_cycles sha1_hex (before ++ env :: after) w
  ∧ announcements_of (src_label s) x (emitted w w1) = []
  ∧ (∃ it, it ∈ fetched_items sha1_hex env s ∧ id it = x
           ∧ announcements_of (src_label s) x (emitted w1 w2) = [it]
           ∧ announcements_of (src_label s) x (emitted w w3) = [it])
  ∧ announcements_of (src_label s) x (emitted w2 w3) = [].
Proof.
  intros Hs Hg Hrel Hk Habs Happ w1 w2 w3.
  apply Forall_app in Hrel as [Hrel1 Hrel]. apply Forall_cons in Hrel as [Hrel2 Hrel3].
  destruct (run_cycles_absent sha1_hex before w s x Hrel1 Hg Hs Hk Habs) as [Hk1 Ha1].
  destruct (run_cycles_grows sha1_hex before w Hrel1) as [Ht1 Hg1].
  fold w1 in Hk1, Ha1, Ht1, Hg1. rewrite Hg in Hg1.
  destruct (cycle_for_id sha1_hex env w1 s x Hrel2 Hg1 Hs) as (_ & _ & Hfirst).
  destruct (Hfirst Hk1 Happ) as (Hk2 & it & Hin & Hid & Ha2).
  destruct (news_loop_grows sha1_hex env w1 Hrel2) as [Ht2 Hg2].
  fold w2 in Hk2, Ha2, Ht2, Hg2. rewrite Hg1 in Hg2.
  destruct (run_cycles_known sha1_hex after w2 s x Hrel3 Hg2 Hs Hk2) as [_ Ha3].
  destruct (run_cycles_grows sha1_hex after w2 Hrel3) as [Ht3 _].
  fold w3 in Ha3, Ht3.
  destruct (emitted_trans _ _ _ Ht1 Ht2) as [Ht12 He12].
  destruct (emitted_trans _ _ _ Ht12 Ht3) as [_ He123].
  split; [|split; [done|split; [|done]]].
  - unfold w3, w2, w1. clear. revert w.
    induction before as [|e before IH]; intros w; [done|]. cbn [app run_cycles]. apply IH.
  - exists it. split; [done|]. split; [done|]. split; [done|].
    by rewrite He123, He12, !announcements_of_app, Ha1, Ha2, Ha3.
Qed.

Lemma announced_exactly_once_witness :
  let x := SITE +:+ "/News/Notice/6" in
  let before := [notice_env page_AE; notice_env page_AE] in
  let env := notice_env page_FD in
  let after := [notice_env page_FD; notice_env page_FD] in
  let w1 := run_cycles plain_hash before open_world in
  let w2 := news_loop plain_hash env w1 in
  let w3 := run_cycles plain_hash after w2 in
  w3 = run_cycles plain_hash (before ++ env :: after) open_world
  ∧ announcements_of "📣 공지" x (emitted open_world w1) = []
  ∧ (∃ it, it ∈ fetched_items plain_hash env notice_source ∧ id it = x
           ∧ announcements_of "📣 공지" x (emitted w1 w2) = [it]
           ∧ announcements_of "📣 공지" x (emitted open_world w3) = [it])
  ∧ announcements_of "📣 공지" x (emitted w2 w3) = [].
Proof.
  intros x before env after.
  apply (announced_exactly_once plain_hash before env after open_world notice_source x).
  - apply (bool_decide_unpack _). by vm_compute.
  - reflexivity.
  - repeat constructor.
  - apply (bool_decide_unpack _). by vm_compute.
  - repeat constructor; intros [_ Hin]; revert Hin;
      apply (bool_decide_unpack _); by vm_compute.
  - split; [reflexivity|]. apply (bool_decide_unpack _). by vm_compute.
Defined.

(** * The scenario of the specification *)

Lemma filter_all_known (K : gset string) (l : list Item) :
  (∀ it, it ∈ l → id it ∈ K) → filter (fun it => id it ∉ K) l = [].
Proof.
  induction l as [|a l IH]; intros H; [done|].
  rewrite filter_cons_False.
  - apply IH. intros it Hit. apply H. by apply list_elem_of_further.
  - intros Hn. apply Hn. apply H. apply list_elem_of_here.
Qed.

(** C4.  One source, nothing persisted for it.  Cycle 1 (gate false)
    fetches [A,B,C,D,E]: no notification, the ids of the five become
    known.  Cycle 2 (gate true) fetches the same five: no notification,
    the entry of the source is unchanged.  Cycle 3 fetches [F,A,B,C,D]:
    exactly one notification, for F, and the known ids are those of the
    six items. *)
Theorem scenario_three_cycles (sha1_hex : string → string) (e1 e2 e3 : Env)
    (w : World) (s : Source) (A B C D E F : Item) :
  s ∈ NEWS_SOURCES →
  notice_channel e1 = true → notice_channel e2 = true → notice_channel e3 = true →
  reliable e1 → reliable e2 → reliable e3 →
  bootstrap_done w = false →
  known_ids (stored w) (src_name s) = ∅ →
  fetched_items sha1_hex e1 s = [A; B; C; D; E] →
  fetched_items sha1_hex e2 s = [A; B; C; D; E] →
  fetched_items sha1_hex e3 s = [F; A; B; C; D] →
  id F ∉ ids [A; B; C; D; E] →
  let w1 := news_loop sha1_hex e1 w in
  let w2 := news_loop sha1_hex e2 (set_bootstrap_done w1) in
  let w3 := news_loop sha1_hex e3 w2 in
  (announced (src_label s) (emitted w w1) = []
   ∧ known_ids (stored w1) (src_name s) = ids [A; B; C; D; E])
  ∧ (announced (src_label s) (emitted (set_bootstrap_done w1) w2) = []
     ∧ stored w2 !! src_name s = stored w1 !! src_name s)
  ∧ (announced (src_label s) (emitted w2 w3) = [F]
     ∧ known_ids (stored w3) (src_name s) = ids [A; B; C; D; E; F]).
Proof.
  intros Hs Hc1 Hc2 Hc3 [Hs1 Hw1] [Hs2 Hw2] [Hs3 Hw3] Hg Hempty Hf1 Hf2 Hf3 HF w1 w2 w3.
  (* cycle 1 *)
  destruct (news_loop_source sha1_hex e1 Hc1 Hw1 w s (fun _ => Hs1) Hs) as (_ & Ha1 & Hg1).
  pose proof (news_loop_known sha1_hex e1 Hc1 Hw1 w s (fun _ => Hs1) Hs) as Hk1.
  fold w1 in Ha1, Hg1, Hk1. rewrite Hg in Ha1. rewrite Hempty, Hf1, union_empty_l_L in Hk1.
  (* cycle 2 *)
  destruct (news_loop_source sha1_hex e2 Hc2 Hw2 (set_bootstrap_done w1) s (fun _ => Hs2) Hs)
    as (He2 & Ha2 & Hg2).
  fold w2 in He2, Ha2, Hg2. cbn [set_bootstrap_done bootstrap_done] in He2, Ha2, Hg2.
  change (stored (set_bootstrap_done w1)) with (stored w1) in He2, Ha2.
  assert (new_items sha1_hex e2 (stored w1) s = []) as Hnew2.
  { unfold new_items. rewrite Hk1, Hf2. apply filter_all_known.
    intros it Hit. apply elem_of_ids. eauto. }
  rewrite Hnew2 in Ha2.
  assert (stored w2 !! src_name s = stored w1 !! src_name s) as Hentry2.
  { rewrite He2. unfold entry_step. rewrite Hf2. cbv zeta.
    rewrite filter_all_known; [done|]. intros it Hit.
    change (id it ∈ known_ids (stored w1) (src_name s)). rewrite Hk1.
    apply elem_of_ids. eauto. }
  assert (known_ids (stored w2) (src_name s) = ids [A; B; C; D; E]) as Hk2.
  { unfold known_ids. rewrite Hentry2. apply Hk1. }
  (* cycle 3 *)
  destruct (news_loop_source sha1_hex e3 Hc3 Hw3 w2 s (fun _ => Hs3) Hs) as (_ & Ha3 & _).
  pose proof (news_loop_known sha1_hex e3 Hc3 Hw3 w2 s (fun _ => Hs3) Hs) as Hk3.
  fold w3 in Ha3, Hk3. rewrite Hg2 in Ha3. rewrite Hk2, Hf3 in Hk3.
  assert (new_items sha1_hex e3 (stored w2) s = [F]) as Hnew3.
  { unfold new_items. rewrite Hk2, Hf3. rewrite filter_cons_True by done.
    f_equal. apply filter_all_known. intros it Hit. apply elem_of_ids.
    exists it. split; [|done]. apply list_elem_of_In. apply list_elem_of_In in Hit.
    simpl in *. tauto. }
  rewrite Hnew3 in Ha3.
  split; [done|]. split; [done|]. split; [done|].
  rewrite Hk3. unfold ids. simpl. apply set_eq. intros y.
  rewrite !elem_of_union, !elem_of_singleton, elem_of_empty. tauto.
Qed.

Lemma scenario_three_cycles_witness :
  let A := notice_item "A" "/News/Notice/5" in
  let B := notice_item "B" "/News/Notice/4" in
  let C := notice_item "C" "/News/Notice/3" in
  let D := notice_item "D" "/News/Notice/2" in
  let E := notice_item "E" "/News/Notice/1" in
  let F := notice_item "F" "/News/Notice/6" in
  let w1 := news_loop plain_hash (notice_env page_AE) fresh_world in
  let w2 := news_loop plain_hash (notice_env page_AE) (set_bootstrap_done w1) in
  let w3 := news_loop plain_hash (notice_env page_FD) w2 in
  (announced "📣 공지" (emitted fresh_world w1) = []
   ∧ known_ids (stored w1) "공지사항" = ids [A; B; C; D; E])
  ∧ (announced "📣 공지" (emitted (set_bootstrap_done w1) w2) = []
     ∧ stored w2 !! "공지사항" = stored w1 !! "공지사항")
  ∧ (announced "📣 공지" (emitted w2 w3) = [F]
     ∧ known_ids (stored w3) "공지사항" = ids [A; B; C; D; E; F]).
Proof.
  intros A B C D E F.
  apply (scenario_three_cycles plain_hash (notice_env page_AE) (notice_env page_AE)
           (notice_env page_FD) fresh_world notice_source A B C D E F).
  - apply (bool_decide_unpack _). by vm_compute.
  - reflexivity.
  - reflexivity.
  - reflexivity.
  - split; intros t; reflexivity.
  - split; intros t; reflexivity.
  - split; intros t; reflexivity.
  - reflexivity.
  - by vm_compute.
  - by vm_compute.
  - by vm_compute.
  - by vm_compute.
  - apply (bool_decide_unpack _). by vm_compute.
Defined.

(** * Isolation of a failing source *)

Lemma NoDup_map_inj {A B} (f : A → B) (l : list A) (x y : A) :
  NoDup (map f l) → x ∈ l → y ∈ l → f x = f y → x = y.
Proof.
  induction l as [|a l IH]; intros Hnd Hx Hy Heq; [by apply elem_of_nil in Hx|].
  cbn [map] in Hnd. apply NoDup_cons in Hnd as [Ha Hnd].
  apply elem_of_cons in Hx as [->|Hx]; apply elem_of_cons in Hy as [->|Hy].
  - done.
  - exfalso. apply Ha. rewrite Heq. by apply list_elem_of_fmap_2.
  - exfalso. apply Ha. rewrite <- Heq. by apply list_elem_of_fmap_2.
  - by apply IH.
Qed.

(** C6.  A source whose fetch fails or yields no item gets no notification
    and keeps its persisted entry, and the other sources of the cycle are
    processed as they would be whatever the page of that source had
    returned: their notifications and their entries are the same in any
    surroundings [env'] that differ from [env] only in that page. *)
Theorem failed_source_isolated (sha1_hex : string → string) (env env' : Env)
    (w : World) (s : Source) :
  s ∈ NEWS_SOURCES →
  notice_channel env = true → reliable env →
  http_get env (src_url s) = None ∨ fetched_items sha1_hex env s = [] →
  notice_channel env' = true → reliable env' →
  (∀ u, u ≠ src_url s → http_get env' u = http_get env u) →
  let w1 := news_loop sha1_hex env w in
  let w1' := news_loop sha1_hex env' w in
  announced (src_label s) (emitted w w1) = []
  ∧ stored w1 !! src_name s = stored w !! src_name s
  ∧ ∀ s', s' ∈ NEWS_SOURCES → s' ≠ s →
      announced (src_label s') (emitted w w1) = announced (src_label s') (emitted w w1')
      ∧ stored w1 !! src_name s' = stored w1' !! src_name s'.
Proof.
  intros Hs Hch [Hsend Hwr] Hfail Hch' [Hsend' Hwr'] Hsame w1 w1'.
  assert (fetched_items sha1_hex env s = []) as Hf.
  { destruct Hfail as [Hnone|Hf]; [|done]. unfold fetched_items. by rewrite Hnone. }
  destruct (news_loop_source sha1_hex env Hch Hwr w s (fun _ => Hsend) Hs) as (He & Ha & _).
  fold w1 in He, Ha. split; [|split].
  - rewrite Ha. unfold new_items. rewrite Hf. by destruct (bootstrap_done w).
  - rewrite He, Hf. done.
  - intros s' Hs' Hne.
    assert (fetched_items sha1_hex env' s' = fetched_items sha1_hex env s') as Hf'.
    { unfold fetched_items. rewrite Hsame; [done|]. intros Hurl. apply Hne.
      by apply (NoDup_map_inj src_url NEWS_SOURCES s' s NEWS_SOURCES_urls). }
    destruct (news_loop_source sha1_hex env Hch Hwr w s' (fun _ => Hsend) Hs')
      as (He1 & Ha1 & _).
    destruct (news_loop_source sha1_hex env' Hch' Hwr' w s' (fun _ => Hsend') Hs')
      as (He2 & Ha2 & _).
    fold w1 in He1, Ha1. fold w1' in He2, Ha2.
    rewrite He1, He2, Ha1, Ha2. unfold new_items. by rewrite Hf'.
Qed.

Lemma failed_source_isolated_witness :
  let env := notice_env page_AE in
  let env' := two_page_env page_AE [("U", "/News/Update/1")] in
  let w1 := news_loop plain_hash env open_world in
  let w1' := news_loop plain_hash env' open_world in
  announced "🛠 업데이트" (emitted open_world w1) = []
  ∧ stored w1 !! "업데이트" = stored open_world !! "업데이트"
  ∧ announced "📣 공지" (emitted open_world w1) = announced "📣 공지" (emitted open_world w1')
  ∧ stored w1 !! "공지사항" = stored w1' !! "공지사항".
Proof.
  intros env env' w1 w1'.
  destruct (failed_source_isolated plain_hash env env' open_world update_source)
    as (H1 & H2 & H3).
  - apply (bool_decide_unpack _). by vm_compute.
  - reflexivity.
  - split; intros t; reflexivity.
  - left. reflexivity.
  - reflexivity.
  - split; intros t; reflexivity.
  - intros u Hu. unfold env', two_page_env. cbn [http_get]. by rewrite decide_False.
  - split; [exact H1|]. split; [exact H2|].
    apply (H3 notice_source).
    + apply (bool_decide_unpack _). by vm_compute.
    + discriminate.
Defined.

(** * What no invocation does: rewrite the history, write the gate *)

Lemma keeps_gate_ret {A} (a : A) : keeps_gate (ret a).
Proof. by intros w. Qed.

Lemma keeps_gate_bind {A B} (m : Prog A) (k : A → Prog B) :
  keeps_gate m → (∀ a, keeps_gate (k a)) → keeps_gate (bind m k).
Proof.
  intros Hm Hk w. unfold bind. specialize (Hm w).
  destruct (m w) as [[a|] w1]; [|done]. simpl in Hm. by rewrite Hk.
Qed.

Lemma keeps_gate_catch {A} (m h : Prog A) :
  keeps_gate m → keeps_gate h → keeps_gate (catch m h).
Proof.
  intros Hm Hh w. unfold catch. specialize (Hm w).
  destruct (m w) as [[a|] w1]; [done|]. simpl in Hm. by rewrite Hh.
Qed.

Lemma appends_catch {A} (m h : Prog A) : appends m → appends h → appends (catch m h).
Proof.
  intros Hm Hh w. unfold catch. destruct (Hm w) as [d Hd].
  destruct (m w) as [[a|] w1]; [by exists d|]. simpl in Hd.
  destruct (Hh w1) as [d' Hd']. exists (d ++ d'). by rewrite Hd', Hd, app_assoc.
Qed.

Lemma appends_ret {A} (a : A) : appends (ret a).
Proof. intros w. exists []. by rewrite app_nil_r. Qed.

Lemma appends_bind {A B} (m : Prog A) (k : A → Prog B) :
  appends m → (∀ a, appends (k a)) → appends (bind m k).
Proof.
  intros Hm Hk w. unfold bind. destruct (Hm w) as [d Hd].
  destruct (m w) as [[a|] w1]; [|by exists d]. simpl in Hd.
  destruct (Hk a w1) as [d' Hd']. exists (d ++ d'). by rewrite Hd', Hd, app_assoc.
Qed.

Section Gate.

Variable sha1_hex : string → string.
Variable env : Env.

Lemma keeps_gate_save state : keeps_gate (save_state env state).
Proof. intros w. unfold save_state. by destruct (write_result env (trace w)). Qed.

Lemma keeps_gate_announce label it : keeps_gate (announce_news_item env label it).
Proof. intros w. unfold announce_news_item. by destruct (send_ok env (trace w)). Qed.

Lemma keeps_gate_send_alert a : keeps_gate (send_alert env a).
Proof. intros w. unfold send_alert. by destruct (send_ok env (trace w)). Qed.

Lemma keeps_gate_fetch name url limit : keeps_gate (fetch_latest_items sha1_hex env name url limit).
Proof. intros w. unfold fetch_latest_items. by destruct (http_get env url). Qed.

Lemma keeps_gate_announce_loop name label its known state :
  keeps_gate (announce_loop env name label its known state).
Proof.
  revert known state. induction its as [|it rest IH]; intros known state; cbn [announce_loop].
  - apply keeps_gate_ret.
  - apply keeps_gate_bind; [apply keeps_gate_announce|]. intros _.
    apply keeps_gate_bind; [apply keeps_gate_save|]. intros _. apply IH.
Qed.

Lemma keeps_gate_poll_source state s : keeps_gate (poll_source sha1_hex env state s).
Proof.
  unfold poll_source. apply keeps_gate_bind; [apply keeps_gate_fetch|].
  intros [|it items]; [apply keeps_gate_ret|].
  apply keeps_gate_bind; [by intros w|]. intros [|]; cbn [negb].
  - apply keeps_gate_bind; [apply keeps_gate_announce_loop|]. intros st.
    apply keeps_gate_bind; [by intros w|]. intros _. apply keeps_gate_ret.
  - apply keeps_gate_bind; [apply keeps_gate_save|]. intros _. apply keeps_gate_ret.
Qed.

Lemma keeps_gate_for_sources srcs state : keeps_gate (for_sources sha1_hex env srcs state).
Proof.
  revert state. induction srcs as [|s rest IH]; intros state; cbn [for_sources].
  - apply keeps_gate_ret.
  - apply keeps_gate_bind; [apply keeps_gate_poll_source|]. intros st. apply IH.
Qed.

Lemma appends_load : appends (load_state : Prog State).
Proof. intros w. by exists [EvLoad]. Qed.

Lemma appends_sleep : appends sleep.
Proof. intros w. by exists [EvSleep]. Qed.

Lemma appends_save state : appends (save_state env state).
Proof.
  intros w. unfold save_state. destruct (write_result env (trace w)).
  - by exists [EvSave state].
  - exists []. by rewrite app_nil_r.
  - exists []. by rewrite app_nil_r.
Qed.

Lemma appends_announce label it : appends (announce_news_item env label it).
Proof.
  intros w. unfold announce_news_item. destruct (send_ok env (trace w)).
  - by eexists [_].
  - exists []. by rewrite app_nil_r.
Qed.

Lemma appends_send_alert a : appends (send_alert env a).
Proof.
  intros w. unfold send_alert. destruct (send_ok env (trace w)).
  - by exists [EvAlert a].
  - exists []. by rewrite app_nil_r.
Qed.

Lemma appends_fetch name url limit : appends (fetch_latest_items sha1_hex env name url limit).
Proof.
  intros w. unfold fetch_latest_items. destruct (http_get env url).
  - by exists [EvFetch name url].
  - exists [EvFetch name url; EvWarn name]. cbn [snd log trace]. by rewrite <- app_assoc.
Qed.

Lemma appends_announce_loop name label its known state :
  appends (announce_loop env name label its known state).
Proof.
  revert known state. induction its as [|it rest IH]; intros known state; cbn [announce_loop].
  - apply appends_ret.
  - apply appends_bind; [apply appends_announce|]. intros _.
    apply appends_bind; [apply appends_save|]. intros _. apply IH.
Qed.

Lemma appends_poll_source state s : appends (poll_source sha1_hex env state s).
Proof.
  unfold poll_source. apply appends_bind; [apply appends_fetch|].
  intros [|it items]; [apply appends_ret|].
  apply appends_bind; [intros w; exists []; by rewrite app_nil_r|]. intros [|]; cbn [negb].
  - apply appends_bind; [apply appends_announce_loop|]. intros st.
    apply appends_bind; [apply appends_sleep|]. intros _. apply appends_ret.
  - apply appends_bind; [apply appends_save|]. intros _. apply appends_ret.
Qed.

Lemma appends_for_sources srcs state : appends (for_sources sha1_hex env srcs state).
Proof.
  revert state. induction srcs as [|s rest IH]; intros state; cbn [for_sources].
  - apply appends_ret.
  - apply appends_bind; [apply appends_poll_source|]. intros st. apply IH.
Qed.

Lemma keeps_gate_report prefix : keeps_gate (report_error env prefix).
Proof.
  intros w. unfold report_error.
  by destruct (log_channel env); [destruct (log_send_ok env (trace w))|].
Qed.

Lemma appends_report prefix : appends (report_error env prefix).
Proof.
  intros w. unfold report_error.
  destruct (log_channel env); [destruct (log_send_ok env (trace w))|].
  - by exists [EvReport prefix].
  - exists []. by rewrite app_nil_r.
  - by exists [EvReport prefix].
Qed.

Lemma appends_news_loop_coro : appends (news_loop_coro sha1_hex env).
Proof.
  apply appends_catch; [|apply appends_report].
  unfold news_loop_body. destruct (notice_channel env); [|apply appends_ret].
  apply appends_bind; [apply appends_load|]. intros st.
  apply appends_bind; [apply appends_for_sources|]. intros _. apply appends_ret.
Qed.

Lemma appends_tick_loop_coro : appends (tick_loop_coro env).
Proof.
  apply appends_catch; [|apply appends_report].
  unfold tick_loop_body. destruct (alert_channel env); [|apply appends_ret].
  apply appends_bind.
  - destruct (is_hour_tick _); [apply appends_send_alert|apply appends_ret].
  - intros _. destruct (is_field_boss _); [apply appends_send_alert|apply appends_ret].
Qed.

(** [emitted] is the difference of the histories, for any surroundings. *)
Lemma news_loop_appends w :
  trace (news_loop sha1_hex env w) = trace w ++ emitted w (news_loop sha1_hex env w).
Proof.
  destruct (appends_news_loop_coro w) as [d Hd]. fold (news_loop sha1_hex env w) in Hd.
  by rewrite (emitted_app _ _ _ Hd).
Qed.

Lemma tick_loop_appends w :
  trace (tick_loop env w) = trace w ++ emitted w (tick_loop env w).
Proof.
  destruct (appends_tick_loop_coro w) as [d Hd]. fold (tick_loop env w) in Hd.
  by rewrite (emitted_app _ _ _ Hd).
Qed.

Lemma news_loop_keeps_gate w :
  bootstrap_done (news_loop sha1_hex env w) = bootstrap_done w.
Proof.
  apply (keeps_gate_catch (news_loop_body sha1_hex env) _); [|apply keeps_gate_report].
  unfold news_loop_body. destruct (notice_channel env); [|apply keeps_gate_ret].
  apply keeps_gate_bind; [by intros w'|]. intros st.
  apply keeps_gate_bind; [apply keeps_gate_for_sources|]. intros _. apply keeps_gate_ret.
Qed.

Lemma tick_loop_keeps_gate w : bootstrap_done (tick_loop env w) = bootstrap_done w.
Proof.
  apply (keeps_gate_catch (tick_loop_body env) _); [|apply keeps_gate_report].
  unfold tick_loop_body. destruct (alert_channel env); [|apply keeps_gate_ret].
  apply keeps_gate_bind.
  - destruct (is_hour_tick _); [apply keeps_gate_send_alert|apply keeps_gate_ret].
  - intros _. destruct (is_field_boss _); [apply keeps_gate_send_alert|apply keeps_gate_ret].
Qed.

End Gate.

(** * The gate across [on_ready] *)

Lemma step_closed (sha1_hex : string → string) (p : Process) (st : Step) :
  st ≠ Ready →
  bootstrap_done (world p) = false → timers p = 0%nat →
  bootstrap_done (world (step sha1_hex p st)) = false
  ∧ timers (step sha1_hex p st) = 0%nat.
Proof.
  intros Hst Hg Ht. destruct st as [| |env|env]; cbn [step].
  - done.
  - by rewrite Ht.
  - destruct (news_running p); [|done].
    cbn [world timers]. by rewrite news_loop_keeps_gate.
  - destruct (tick_running p); [|done].
    cbn [world timers]. by rewrite tick_loop_keeps_gate.
Qed.

(** With the gate closed and no callback pending, nothing but a later
    [on_ready] opens it again. *)
Lemma gate_stays_closed (sha1_hex : string → string) (steps : list Step) (p : Process) :
  bootstrap_done (world p) = false → timers p = 0%nat →
  Forall (fun st => st ≠ Ready) steps →
  bootstrap_done (world (run sha1_hex steps p)) = false.
Proof.
  revert p. induction steps as [|st steps IH]; intros p Hg Ht Hsteps; [done|].
  apply Forall_cons in Hsteps as [Hst Hsteps]. cbn [run fold_left].
  destruct (step_closed sha1_hex p st Hst Hg Ht) as (Hg' & Ht').
  by apply IH.
Qed.

(** While [on_ready] is called once only, the gate opens when the callback
    fires and stays open. *)
Lemma gate_stays_open (sha1_hex : string → string) (steps : list Step) (p : Process) :
  bootstrap_done (world p) = true →
  Forall (fun st => st ≠ Ready) steps →
  bootstrap_done (world (run sha1_hex steps p)) = true.
Proof.
  revert p. induction steps as [|st steps IH]; intros p Hg Hsteps; [done|].
  apply Forall_cons in Hsteps as [Hst Hsteps]. cbn [run fold_left]. apply IH; [|done].
  destruct st as [| |env|env]; cbn [step]; [done| | |].
  - by destruct (timers p).
  - destruct (news_running p); [|done]. cbn [world]. by rewrite news_loop_keeps_gate.
  - destruct (tick_running p); [|done]. cbn [world]. by rewrite tick_loop_keeps_gate.
Qed.

(** C9.  The gate starts false and the callback scheduled by the first
    [on_ready] sets it; but a later [on_ready] (the platform calls it again
    after a reconnect, which the [is_running] guards of the handler
    provide for) sets it back to false, and while [news_loop] still runs it
    schedules no callback: the gate does not remain true, and nothing opens
    it again.  Only when the loop had stopped does the handler start it
    again and schedule a callback. *)
Theorem second_ready_closes_gate (sha1_hex : string → string)
    (file0 : option State) (env : Env) :
  let p0 := process_start file0 in
  let p1 := run sha1_hex [Ready; Poll env; Timer] p0 in
  let p2 := step sha1_hex p1 Ready in
  bootstrap_done (world p0) = false
  ∧ bootstrap_done (world p1) = true ∧ timers p1 = 0%nat
  ∧ bootstrap_done (world p2) = false
  ∧ (news_running p1 = true →
     timers p2 = 0%nat
     ∧ bootstrap_done (world (run sha1_hex [Timer; Poll env; Timer] p2)) = false)
  ∧ (news_running p1 = false → timers p2 = 1%nat ∧ news_running p2 = true).
Proof.
  intros p0 p1 p2.
  assert (bootstrap_done (world p1) = true ∧ timers p1 = 0%nat) as (Hg1 & Ht1) by done.
  assert (bootstrap_done (world p2) = false) as Hg2.
  { unfold p2. cbn [step]. unfold on_ready. by destruct (news_running p1). }
  repeat (split; [done|]). split.
  - intros Hn1.
    assert (timers p2 = 0%nat) as Ht2.
    { unfold p2. cbn [step]. unfold on_ready. by rewrite Hn1. }
    split; [done|].
    apply gate_stays_closed; try done. repeat constructor; discriminate.
  - intros Hn1. unfold p2. cbn [step]. unfold on_ready. rewrite Hn1.
    cbn [timers news_running]. by rewrite Ht1.
Qed.

Lemma second_ready_closes_gate_witness :
  let p0 := process_start None in
  let p1 := run plain_hash [Ready; Poll (notice_env page_AE); Timer] p0 in
  let p2 := step plain_hash p1 Ready in
  bootstrap_done (world p0) = false
  ∧ bootstrap_done (world p1) = true ∧ timers p1 = 0%nat
  ∧ bootstrap_done (world p2) = false ∧ timers p2 = 0%nat
  ∧ bootstrap_done
      (world (run plain_hash [Timer; Poll (notice_env page_AE); Timer] p2)) = false.
Proof.
  intros p0 p1 p2.
  destruct (second_ready_closes_gate plain_hash None (notice_env page_AE))
    as (H0 & H1 & H1' & H2 & Hruns & _).
  destruct (Hruns eq_refl) as [H2' Hclosed].
  repeat (split; [assumption|]). exact Hclosed.
Defined.

(** * The failure paths, on examples *)

(** A delivery that fails ends the cycle in [report_error]: nothing is
    announced, nothing is persisted, the later sources are not fetched. *)
Example delivery_failure_reported :
  emitted open_world (news_loop plain_hash (deaf_env page_AE) open_world)
  = [EvLoad; EvFetch "공지사항" NOTICE_URL; EvReport "news_loop 에러"]
  ∧ file (news_loop plain_hash (deaf_env page_AE) open_world) = None.
Proof. by vm_compute. Qed.

(** A refused error report ends the loop: its next invocation does not
    take place, and a later [on_ready] starts the loop again and schedules a
    fresh callback. *)
Example refused_report_stops_loop :
  let p1 := run plain_hash [Ready; Timer; Poll (mute_env page_AE)] (process_start None) in
  let p2 := step plain_hash p1 (Poll (notice_env page_AE)) in
  let p3 := step plain_hash p2 Ready in
  news_running p1 = false ∧ tick_running p1 = true
  ∧ trace (world p1) = [EvLoad; EvFetch "공지사항" NOTICE_URL]
  ∧ p2 = p1
  ∧ news_running p3 = true ∧ timers p3 = 1%nat ∧ bootstrap_done (world p3) = false.
Proof. by vm_compute. Qed.

(** A write that fails after a delivery leaves the item announced and not
    persisted; the next cycle announces it again. *)
Example write_failure_duplicates :
  let w1 := news_loop plain_hash (readonly_env page_AE) open_world in
  let w2 := news_loop plain_hash (notice_env page_AE) w1 in
  announced "📣 공지" (emitted open_world w1) = [notice_item "E" "/News/Notice/1"]
  ∧ file w1 = None
  ∧ announced "📣 공지" (emitted w1 w2)
    = [notice_item "E" "/News/Notice/1"; notice_item "D" "/News/Notice/2";
       notice_item "C" "/News/Notice/3"; notice_item "B" "/News/Notice/4";
       notice_item "A" "/News/Notice/5"].
Proof. by vm_compute. Qed.

(** * More on the feed fetcher *)

Section FetcherMore.

Variable sha1_hex : string → string.

Lemma dedup_loop_prefix anchors seen items limit :
  ∃ rest, dedup_loop sha1_hex anchors seen items limit = items ++ rest.
Proof.
  revert seen items. induction anchors as [|[t h] anchors IH]; intros seen items; simpl.
  - exists []. by rewrite app_nil_r.
  - case_decide; [apply IH|].
    destruct (_ >=? _).
    + by eexists.
    + destruct (IH ({[normalize_link sha1_hex h]} ∪ seen)
                   (items ++ [mkItem (normalize_link sha1_hex h) t h])) as [rest ->].
      rewrite <- app_assoc. by eexists.
Qed.

Lemma dedup_loop_bound anchors seen items limit :
  Z.of_nat (length items) < Z.max 1 limit →
  Z.of_nat (length (dedup_loop sha1_hex anchors seen items limit)) ≤ Z.max 1 limit.
Proof.
  revert seen items.
  induction anchors as [|[t h] anchors IH]; intros seen items Hlen; simpl; [lia|].
  case_decide; [by apply IH|].
  destruct (Z.geb_spec (Z.of_nat (length (items ++ [mkItem (normalize_link sha1_hex h) t h]))) limit)
    as [Hge|Hlt].
  - rewrite length_app in *. simpl. lia.
  - apply IH. rewrite length_app in *. simpl in *. lia.
Qed.

Lemma dedup_loop_take anchors seen items (n m : Z) :
  Z.of_nat (length items) < n → n ≤ m →
  dedup_loop sha1_hex anchors seen items n
  = take (Z.to_nat n) (dedup_loop sha1_hex anchors seen items m).
Proof.
  revert seen items.
  induction anchors as [|[t h] anchors IH]; intros seen items Hlen Hnm; simpl.
  - rewrite take_ge; [done|lia].
  - case_decide; [by apply IH|].
    set (items' := items ++ [mkItem (normalize_link sha1_hex h) t h]).
    assert (length items' = S (length items)) as Hl'.
    { unfold items'. rewrite length_app. simpl. lia. }
    destruct (Z.geb_spec (Z.of_nat (length items')) n) as [Hge|Hlt].
    + assert (Z.to_nat n = length items') as Hn by lia.
      destruct (Z.geb_spec (Z.of_nat (length items')) m) as [Hge'|Hlt'].
      * rewrite take_ge; [done|lia].
      * destruct (dedup_loop_prefix anchors ({[normalize_link sha1_hex h]} ∪ seen) items' m)
          as [rest ->].
        rewrite Hn. by rewrite take_app_length.
    + destruct (Z.geb_spec (Z.of_nat (length items')) m) as [Hge'|Hlt']; [lia|].
      by apply IH.
Qed.

(** What the anchor filter lets through. *)
Lemma collect_anchors_spec page text href :
  (text, href) ∈ collect_anchors page →
  text ≠ "" ∧ is_news_link href = true
  ∧ ∃ raw, (text, raw) ∈ page ∧ href = resolve_href raw.
Proof.
  induction page as [|[t h] page IH]; simpl; [by intros ?%elem_of_nil|].
  destruct (is_news_link (resolve_href h)) eqn:Hnews.
  - case_bool_decide as Ht.
    + intros [Heq|Hin]%elem_of_cons.
      * injection Heq as -> ->. split; [done|]. split; [done|].
        exists h. split; [apply list_elem_of_here|done].
      * destruct (IH Hin) as (? & ? & raw & ? & ?). split; [done|]. split; [done|].
        exists raw. split; [by apply list_elem_of_further|done].
    + intros Hin. destruct (IH Hin) as (? & ? & raw & ? & ?). split; [done|]. split; [done|].
      exists raw. split; [by apply list_elem_of_further|done].
  - intros Hin. destruct (IH Hin) as (? & ? & raw & ? & ?). split; [done|]. split; [done|].
    exists raw. split; [by apply list_elem_of_further|done].
Qed.

Lemma resolve_href_absolute raw : startswith "/" (resolve_href raw) = false.
Proof.
  unfold resolve_href. destruct (startswith "/" raw) eqn:Hraw; [reflexivity|done].
Qed.

Lemma dedup_loop_from anchors seen items limit it :
  it ∈ dedup_loop sha1_hex anchors seen items limit →
  it ∈ items ∨ (title it, link it) ∈ anchors.
Proof.
  revert seen items. induction anchors as [|[t h] anchors IH]; intros seen items; simpl.
  - by left.
  - case_decide.
    + intros [?|?]%IH; [by left|right; by apply list_elem_of_further].
    + destruct (_ >=? _).
      * intros [?|Heq%list_elem_of_singleton]%elem_of_app; [by left|right].
        subst it. apply list_elem_of_here.
      * intros [[?|Heq%list_elem_of_singleton]%elem_of_app|?]%IH.
        -- by left.
        -- right. subst it. apply list_elem_of_here.
        -- right. by apply list_elem_of_further.
Qed.

(** A later anchor whose link is already listed is passed over. *)
Lemma dedup_loop_repeat anchors seen items limit text href :
  normalize_link sha1_hex href ∈ seen ∨ href ∈ map snd anchors →
  dedup_loop sha1_hex (anchors ++ [(text, href)]) seen items limit
  = dedup_loop sha1_hex anchors seen items limit.
Proof.
  revert seen items. induction anchors as [|[t h] anchors IH]; intros seen items Hdup; simpl.
  - destruct Hdup as [Hin|Hin]; [|by apply elem_of_nil in Hin]. by rewrite decide_True.
  - case_decide as Hseen.
    + apply IH. destruct Hdup as [?|Hin]; [by left|].
      simpl in Hin. apply elem_of_cons in Hin as [->|?]; [by left|by right].
    + destruct (_ >=? _); [done|]. apply IH.
      destruct Hdup as [?|Hin]; [left; by apply elem_of_union_r|].
      simpl in Hin. apply elem_of_cons in Hin as [->|?]; [|by right].
      left. apply elem_of_union_l. by apply elem_of_singleton.
Qed.

End FetcherMore.

(** X1.  A batch holds at most [limit] items, and at most one when [limit]
    is below one: the bound is tested after an item has been appended. *)
Theorem batch_bound (sha1_hex : string → string) (page : list (string * string)) (limit : Z) :
  Z.of_nat (length (extract_items sha1_hex page limit)) ≤ Z.max 1 limit.
Proof. apply dedup_loop_bound. simpl. lia. Qed.

(** X2.  The ids of a batch are pairwise different. *)
Theorem batch_ids_distinct (sha1_hex : string → string) (env : Env) (s : Source) :
  NoDup (map id (fetched_items sha1_hex env s)).
Proof.
  unfold fetched_items. destruct (http_get env (src_url s)); [|constructor].
  apply extract_items_NoDup.
Qed.

(** X3.  Every item of a batch comes from an anchor of the page: it has
    that anchor's text, which is not empty, and its link is the anchor's
    href made absolute, points into a news section of the site and does not
    start with a slash. *)
Theorem batch_items_wellformed (sha1_hex : string → string)
    (page : list (string * string)) (limit : Z) (it : Item) :
  it ∈ extract_items sha1_hex page limit →
  title it ≠ ""
  ∧ is_news_link (link it) = true
  ∧ startswith "/" (link it) = false
  ∧ ∃ raw, (title it, raw) ∈ page ∧ link it = resolve_href raw.
Proof.
  intros Hin. apply dedup_loop_from in Hin as [Hin|Hin]; [by apply elem_of_nil in Hin|].
  apply collect_anchors_spec in Hin as (Ht & Hnews & raw & Hraw & Hlink).
  split; [done|]. split; [done|]. split; [|by exists raw].
  rewrite Hlink. apply resolve_href_absolute.
Qed.

Lemma batch_items_wellformed_witness :
  let it := notice_item "A" "/News/Notice/5" in
  title it ≠ ""
  ∧ is_news_link (link it) = true
  ∧ startswith "/" (link it) = false
  ∧ ∃ raw, (title it, raw) ∈ page_AE ∧ link it = resolve_href raw.
Proof.
  intros it. apply (batch_items_wellformed plain_hash page_AE 5 it).
  apply (bool_decide_unpack _). by vm_compute.
Defined.

(** X4.  The bound only cuts: for 1 ≤ n ≤ m the batch of bound [n] is the
    first [n] items of the batch of bound [m]. *)
Theorem batch_limit_truncates (sha1_hex : string → string)
    (page : list (string * string)) (n m : Z) :
  1 ≤ n → n ≤ m →
  extract_items sha1_hex page n = take (Z.to_nat n) (extract_items sha1_hex page m).
Proof. intros Hn Hnm. apply dedup_loop_take; simpl; lia. Qed.

Lemma batch_limit_truncates_witness :
  extract_items plain_hash page_AE 2 = take (Z.to_nat 2) (extract_items plain_hash page_AE 5).
Proof. apply (batch_limit_truncates plain_hash page_AE 2 5); lia. Defined.

(** X5.  First occurrence wins: an anchor added at the end of the page
    whose absolute link is that of an anchor already kept changes nothing,
    whatever its text. *)
Theorem batch_ignores_repeated_link (sha1_hex : string → string)
    (page : list (string * string)) (text href : string) (limit : Z) :
  resolve_href href ∈ map snd (collect_anchors page) →
  extract_items sha1_hex (page ++ [(text, href)]) limit = extract_items sha1_hex page limit.
Proof.
  intros Hdup. unfold extract_items. rewrite collect_anchors_app. cbn [collect_anchors].
  destruct (is_news_link (resolve_href href)); [|by rewrite app_nil_r].
  case_bool_decide; [|by rewrite app_nil_r].
  apply dedup_loop_repeat. by right.
Qed.

Lemma batch_ignores_repeated_link_witness :
  extract_items plain_hash (page_AE ++ [("again", SITE +:+ "/News/Notice/3")]) 5
  = extract_items plain_hash page_AE 5.
Proof.
  apply (batch_ignores_repeated_link plain_hash page_AE "again" (SITE +:+ "/News/Notice/3") 5).
  apply (bool_decide_unpack _). by vm_compute.
Defined.

(** * Programs that may raise *)

Lemma ensures_ret {A} (a : A) (P : World → Prop) (Q : A → World → Prop) (R : World → Prop) :
  (∀ w, P w → Q a w) → ensures (ret a) P Q R.
Proof. intros H w Hw. by apply H. Qed.

Lemma ensures_bind {A B} (m : Prog A) (k : A → Prog B) (P : World → Prop)
    (Q : A → World → Prop) (Q' : B → World → Prop) (R : World → Prop) :
  ensures m P Q R → (∀ a, ensures (k a) (Q a) Q' R) → ensures (bind m k) P Q' R.
Proof.
  intros Hm Hk w Hw. unfold bind. specialize (Hm w Hw).
  destruct (m w) as [[a|] w1]; [|done]. by apply Hk.
Qed.

Section Ensures.

Variable sha1_hex : string → string.
Variable env : Env.

(** The loop over the sources keeps what each source keeps. *)
Lemma ensures_for_sources srcs (Inv : State → World → Prop) (R : World → Prop) :
  (∀ s state, s ∈ srcs → ensures (poll_source sha1_hex env state s) (Inv state) Inv R) →
  ∀ state, ensures (for_sources sha1_hex env srcs state) (Inv state) Inv R.
Proof.
  induction srcs as [|s srcs IH]; intros Hstep state; cbn [for_sources].
  - by apply ensures_ret.
  - eapply ensures_bind; [apply Hstep, list_elem_of_here|].
    intros st. apply IH. intros s' st' Hs'. apply Hstep. by apply list_elem_of_further.
Qed.

(** One invocation: [Inv] from the load on across the sources, [R] where
    the body raises, [F] at the end, reached by a return, through
    [report_error], or with the report refused. *)
Lemma ensures_news_loop_end (Inv : State → World → Prop) (R F : World → Prop) w :
  (notice_channel env = false → F w) →
  Inv (stored w) (log EvLoad w) →
  (∀ s state, s ∈ NEWS_SOURCES →
     ensures (poll_source sha1_hex env state s) (Inv state) Inv R) →
  (∀ state w', Inv state w' → F w') →
  (∀ w', R w' → F (log (EvReport "news_loop 에러") w')) →
  (∀ w', R w' → F w') →
  F (news_loop sha1_hex env w).
Proof.
  intros Hoff Hload Hstep Hend Hreport Hrefused.
  unfold news_loop, news_loop_coro, catch, news_loop_body.
  destruct (notice_channel env); [|by apply Hoff].
  cbv [bind load_state ret]. fold (stored w).
  pose proof (ensures_for_sources NEWS_SOURCES Inv R Hstep (stored w) (log EvLoad w) Hload) as H.
  destruct (for_sources sha1_hex env NEWS_SOURCES (stored w) (log EvLoad w)) as [[st|] w'].
  - by eapply Hend.
  - unfold report_error.
    destruct (log_channel env); [destruct (log_send_ok env (trace w'))|]; cbn [snd].
    + by apply Hreport.
    + by apply Hrefused.
    + by apply Hreport.
Qed.

(** The dispatch loop keeps what each of its rounds keeps. *)
Lemma ensures_announce_loop name label its
    (Inv : gset string → State → World → Prop) (R : World → Prop) :
  (∀ it known state w,
     Inv known state w →
     (send_ok env (trace w) = false → R w) ∧
     (send_ok env (trace w) = true →
      let w1 := log (EvAnnounce (role_mention (ANNOUNCE_ROLE_ID env)) label it) w in
      let known' := {[id it]} ∪ known in
      let state' := <[name := elements known']> state in
      match write_result env (trace w1) with
      | Written => Inv known' state'
                     (mkWorld (Some state') (bootstrap_done w) (trace w1 ++ [EvSave state']))
      | OpenFailed => R w1
      | DumpFailed => R (mkWorld None (bootstrap_done w) (trace w1))
      end)) →
  ∀ known state,
    ensures (announce_loop env name label its known state) (Inv known state)
            (fun st w => ∃ known', Inv known' st w) R.
Proof.
  intros Hround. induction its as [|it its IH]; intros known state w Hw; cbn [announce_loop].
  - by exists known.
  - destruct (Hround it known state w Hw) as [Hfail Hsent].
    unfold bind at 1. unfold announce_news_item.
    destruct (send_ok env (trace w)); [|by apply Hfail].
    specialize (Hsent eq_refl). cbv zeta in Hsent.
    unfold bind at 1. unfold save_state. cbn [trace log bootstrap_done] in *.
    destruct (write_result env _); [|done|done].
    by apply IH.
Qed.

End Ensures.

Section EnsuresSource.

Variable sha1_hex : string → string.
Variable env : Env.

(** A source keeps what its fetch, its baseline write and its dispatch
    loop keep. *)
Lemma ensures_poll_source (Inv : State → World → Prop) (R : World → Prop) state s :
  (∀ w, Inv state w →
        Inv state (mkWorld (file w) (bootstrap_done w) (trace w ++ fetch_events env s))) →
  (∀ w, Inv state w → bootstrap_done w = false →
        match write_result env (trace w) with
        | Written =>
            Inv (baseline sha1_hex env state s)
                (mkWorld (Some (baseline sha1_hex env state s)) (bootstrap_done w)
                         (trace w ++ [EvSave (baseline sha1_hex env state s)]))
        | OpenFailed => R w
        | DumpFailed => R (mkWorld None (bootstrap_done w) (trace w))
        end) →
  (∀ w, Inv state w → bootstrap_done w = true →
        match announce_loop env (src_name s) (src_label s)
                (reverse (new_items sha1_hex env state s))
                (known_ids state (src_name s)) state w with
        | (Return st, w') => Inv st (log EvSleep w')
        | (Raised, w') => R w'
        end) →
  ensures (poll_source sha1_hex env state s) (Inv state) Inv R.
Proof.
  intros Hfetch Hbase Hloop w Hw. rewrite poll_source_unfold. cbv zeta.
  specialize (Hfetch w Hw).
  destruct (fetched_items sha1_hex env s) as [|it items]; [done|].
  destruct (bootstrap_done w) eqn:Hg.
  - specialize (Hloop _ Hfetch eq_refl). unfold bind at 1.
    destruct (announce_loop _ _ _ _ _ _ _) as [[st|] w']; [|done]. done.
  - specialize (Hbase _ Hfetch eq_refl). unfold bind, save_state, ret.
    cbn [trace bootstrap_done] in *. by destruct (write_result env _).
Qed.

End EnsuresSource.

(** * The closed gate *)

Lemma fetch_events_quiet env s : Forall (fun e => is_loud e = false) (fetch_events env s).
Proof. unfold fetch_events. destruct (http_get env (src_url s)); repeat constructor. Qed.

Lemma news_loop_closed_quiet (sha1_hex : string → string) (env : Env) (w : World) :
  bootstrap_done w = false →
  Forall (fun e => is_loud e = false) (emitted w (news_loop sha1_hex env w))
  ∧ ∀ label, announced label (emitted w (news_loop sha1_hex env w)) = [].
Proof.
  intros Hg.
  set (Q := fun w' : World =>
         bootstrap_done w' = false
         ∧ ∃ d, extends_by w w' d ∧ Forall (fun e => is_loud e = false) d).
  assert (Q (news_loop sha1_hex env w)) as (_ & d & Hd & Hquiet).
  { apply (ensures_news_loop_end sha1_hex env (fun _ => Q) Q Q).
    - intros _. split; [done|]. exists []. split; [|constructor].
      unfold extends_by. by rewrite app_nil_r.
    - split; [done|]. exists [EvLoad]. split; [done|]. by repeat constructor.
    - intros s state _. apply (ensures_poll_source sha1_hex env (fun _ => Q) Q).
      + intros w' (Hg' & d & Hd & Hq). split; [done|]. exists (d ++ fetch_events env s).
        split; [|apply Forall_app; split; [done|apply fetch_events_quiet]].
        unfold extends_by in *. cbn [trace]. by rewrite Hd, app_assoc.
      + intros w' (Hg' & d & Hd & Hq) _. unfold extends_by in *.
        destruct (write_result env (trace w')); (split; [done|]).
        * eexists (d ++ [_]). cbn [trace]. rewrite Hd, app_assoc. split; [done|].
          apply Forall_app. split; [done|]. by repeat constructor.
        * by exists d.
        * by exists d.
      + intros w' (Hg' & _) Hg''. congruence.
    - done.
    - intros w' (Hg' & d & Hd & Hq). split; [done|]. eexists (d ++ [_]).
      unfold extends_by in *. cbn [log trace]. rewrite Hd, app_assoc. split; [done|].
      apply Forall_app. split; [done|]. by repeat constructor.
    - by intros w' HQ. }
  rewrite (emitted_app _ _ _ Hd). split; [done|]. intros label.
  clear Hd. induction Hquiet as [|e d He Hq IH]; [done|].
  unfold announced in *. destruct e; try done.
Qed.

(** X6.  While the gate is false an invocation of the poll cycle sends no
    notification and takes no pause, whatever the pages return and whatever
    fails. *)
Theorem closed_gate_is_silent (sha1_hex : string → string) (env : Env) (w : World) :
  bootstrap_done w = false →
  Forall (fun e => is_loud e = false) (emitted w (news_loop sha1_hex env w))
  ∧ ∀ label, announced label (emitted w (news_loop sha1_hex env w)) = [].
Proof. apply news_loop_closed_quiet. Qed.

Lemma closed_gate_is_silent_witness :
  Forall (fun e => is_loud e = false)
         (emitted fresh_world (news_loop plain_hash (deaf_env page_AE) fresh_world))
  ∧ ∀ label, announced label
               (emitted fresh_world (news_loop plain_hash (deaf_env page_AE) fresh_world)) = [].
Proof. apply (closed_gate_is_silent plain_hash (deaf_env page_AE) fresh_world). reflexivity. Defined.

(** * The store across an invocation *)

Lemma known_ids_insert_eq (state : State) (n : string) (K : gset string) :
  known_ids (<[n := elements K]> state) n = K.
Proof. unfold known_ids. rewrite lookup_insert_eq. simpl. apply list_to_set_elements_L. Qed.

Lemma known_ids_insert_ne (state : State) (n m : string) (l : list string) :
  n ≠ m → known_ids (<[m := l]> state) n = known_ids state n.
Proof. intros Hne. unfold known_ids. by rewrite lookup_insert_ne. Qed.

Lemma known_ids_insert_grows (state : State) (n m : string) (K : gset string) :
  known_ids state m ⊆ K → known_ids state n ⊆ known_ids (<[m := elements K]> state) n.
Proof.
  intros HK. destruct (decide (n = m)) as [->|Hne].
  - by rewrite known_ids_insert_eq.
  - by rewrite known_ids_insert_ne.
Qed.

Lemma registered_name (s : Source) (n : string) :
  s ∈ NEWS_SOURCES → n ∉ map src_name NEWS_SOURCES → n ≠ src_name s.
Proof. intros Hs Hn ->. apply Hn. by apply list_elem_of_fmap_2. Qed.

Lemma stored_written (st : State) (gate : bool) (tr : list Event) :
  stored (mkWorld (Some st) gate tr) = st.
Proof. reflexivity. Qed.

(** X7.  Unless a write breaks off after the file has been truncated, an
    invocation of the poll cycle never removes an id from the persisted
    state, whatever else fails, and it leaves the entries of names that are
    not registered sources as they are. *)
Theorem store_only_grows (sha1_hex : string → string) (env : Env) (w : World) :
  (∀ t, write_result env t ≠ DumpFailed) →
  (∀ n, known_ids (stored w) n ⊆ known_ids (stored (news_loop sha1_hex env w)) n)
  ∧ (∀ n, n ∉ map src_name NEWS_SOURCES →
          stored (news_loop sha1_hex env w) !! n = stored w !! n).
Proof.
  intros Hdump.
  set (R := fun w' : World =>
         (∀ n, known_ids (stored w) n ⊆ known_ids (stored w') n)
         ∧ (∀ n, n ∉ map src_name NEWS_SOURCES → stored w' !! n = stored w !! n)).
  set (Inv := fun (state : State) (w' : World) => stored w' = state ∧ R w').
  assert (∀ state s K w',
            s ∈ NEWS_SOURCES → Inv state w' → known_ids state (src_name s) ⊆ K →
            ∀ gate tr, Inv (<[src_name s := elements K]> state)
                      (mkWorld (Some (<[src_name s := elements K]> state)) gate tr)) as Hwrite.
  { intros state s K w' Hs (Hst & Hmono & Hframe) HK gate tr. split; [done|]. split.
    - intros n. etrans; [apply Hmono|]. rewrite Hst, stored_written.
      by apply known_ids_insert_grows.
    - intros n Hn. rewrite stored_written.
      rewrite lookup_insert_ne by (by apply not_eq_sym, registered_name).
      rewrite <- Hst. by apply Hframe. }
  apply (ensures_news_loop_end sha1_hex env Inv R R).
  - intros _. by split.
  - split; [done|]. by split.
  - intros s state Hs. apply (ensures_poll_source sha1_hex env Inv R).
    + intros w' HI. exact HI.
    + intros w' HI _. pose proof (Hdump (trace w')) as Hd.
      destruct (write_result env (trace w')); [|by destruct HI|done].
      apply (Hwrite state s _ w' Hs HI). apply union_subseteq_l.
    + intros w' HI _.
      assert (ensures (announce_loop env (src_name s) (src_label s)
                         (reverse (new_items sha1_hex env state s))
                         (known_ids state (src_name s)) state)
                (fun w'' => Inv state w'' ∧ known_ids state (src_name s) = known_ids state (src_name s))
                (fun st w'' => ∃ known', Inv st w'' ∧ known_ids st (src_name s) = known') R)
        as Hloop.
      { apply (ensures_announce_loop env (src_name s) (src_label s) _
                 (fun known st w'' => Inv st w'' ∧ known_ids st (src_name s) = known) R).
        intros it known st w1 [HI1 Hk1]. split; [intros _; apply HI1|]. intros _. cbv zeta.
        pose proof (Hdump (trace (log (EvAnnounce (role_mention (ANNOUNCE_ROLE_ID env))
                                        (src_label s) it) w1))) as Hd.
        destruct (write_result env _); [|apply HI1|done].
        split; [|apply known_ids_insert_eq].
        apply (Hwrite st s _ w1 Hs HI1). rewrite Hk1. apply union_subseteq_r. }
      specialize (Hloop w' (conj HI eq_refl)).
      destruct (announce_loop _ _ _ _ _ _ _) as [[st|] w'']; [|done].
      destruct Hloop as (known' & HI' & _). exact HI'.
  - by intros state w' [_ HR].
  - intros w' HR. exact HR.
  - intros w' HR. exact HR.
Qed.

Lemma store_only_grows_witness :
  let w' := news_loop plain_hash (notice_env page_FD) seeded_world in
  (∀ n, known_ids (stored seeded_world) n ⊆ known_ids (stored w') n)
  ∧ (∀ n, n ∉ map src_name NEWS_SOURCES → stored w' !! n = stored seeded_world !! n).
Proof.
  apply (store_only_grows plain_hash (notice_env page_FD) seeded_world).
  intros t. discriminate.
Defined.

(** * Dispatch and persistence, whatever fails *)

Lemma ids_app (a b : list Item) : ids (a ++ b) = ids a ∪ ids b.
Proof. unfold ids. by rewrite map_app, list_to_set_app_L. Qed.

Lemma announced_snoc_announce label d m l it :
  announced label (d ++ [EvAnnounce m l it])
  = announced label d ++ (if decide (l = label) then [it] else []).
Proof. rewrite announced_app. f_equal. unfold announced. simpl. by case_decide. Qed.

Lemma announced_snoc_other label d e :
  (∀ m l it, e ≠ EvAnnounce m l it) → announced label (d ++ [e]) = announced label d.
Proof.
  intros He. rewrite announced_app. destruct e; try by rewrite app_nil_r.
  by destruct (He mention0 label0 it).
Qed.

Lemma announced_fetch_events label env s d :
  announced label (d ++ fetch_events env s) = announced label d.
Proof. by rewrite announced_app, fetch_events_announced, app_nil_r. Qed.

Lemma known_ids_empty_state (n : string) : known_ids empty_state n = ∅.
Proof.
  unfold known_ids. destruct (empty_state !! n) as [l|] eqn:Hl; [|done].
  apply elem_of_list_to_map_2 in Hl.
  change (map ?f ?l) with (fmap (M:=list) f l) in Hl.
  apply list_elem_of_fmap in Hl as (s & Heq & _). by injection Heq as _ ->.
Qed.

Lemma registered_by_name (s s0 : Source) :
  s ∈ NEWS_SOURCES → s0 ∈ NEWS_SOURCES → src_name s = src_name s0 → s = s0.
Proof. intros. by apply (NoDup_map_inj src_name NEWS_SOURCES s s0 NEWS_SOURCES_names). Qed.

Lemma registered_by_label (s s0 : Source) :
  s ∈ NEWS_SOURCES → s0 ∈ NEWS_SOURCES → src_label s = src_label s0 → s = s0.
Proof. intros. by apply (NoDup_map_inj src_label NEWS_SOURCES s s0 NEWS_SOURCES_labels). Qed.

(** X8.  Dispatch comes before persistence: with the gate true, whatever
    fails, an id that an invocation has added to the persisted state of a
    source is the id of an item the invocation has announced for that
    source. *)
Theorem persisted_only_after_announced (sha1_hex : string → string) (env : Env)
    (w : World) (s0 : Source) (x : string) :
  s0 ∈ NEWS_SOURCES →
  bootstrap_done w = true →
  x ∈ known_ids (stored (news_loop sha1_hex env w)) (src_name s0) →
  x ∈ known_ids (stored w) (src_name s0)
  ∨ x ∈ ids (announced (src_label s0) (emitted w (news_loop sha1_hex env w))).
Proof.
  intros Hs0 Hg Hx.
  set (name0 := src_name s0) in *. set (label0 := src_label s0) in *.
  set (K0 := known_ids (stored w) name0).
  set (R := fun w' : World =>
         ∃ d, extends_by w w' d ∧ known_ids (stored w') name0 ⊆ K0 ∪ ids (announced label0 d)).
  set (Inv := fun (state : State) (w' : World) =>
         bootstrap_done w' = true ∧
         ∃ d, extends_by w w' d
              ∧ known_ids state name0 ⊆ K0 ∪ ids (announced label0 d)
              ∧ known_ids (stored w') name0 ⊆ K0 ∪ ids (announced label0 d)).
  assert (R (news_loop sha1_hex env w)) as (d & Hd & Hsub).
  { apply (ensures_news_loop_end sha1_hex env Inv R R).
    - intros _. exists []. split; [unfold extends_by; by rewrite app_nil_r|].
      apply union_subseteq_l.
    - split; [done|]. exists [EvLoad]. split; [done|]. split; apply union_subseteq_l.
    - intros s state Hs. apply (ensures_poll_source sha1_hex env Inv R).
      + intros w' (Hg' & d & Hd & H1 & H2). split; [done|].
        exists (d ++ fetch_events env s). rewrite announced_fetch_events.
        split; [|done]. unfold extends_by in *. cbn [trace]. by rewrite Hd, app_assoc.
      + intros w' (Hg' & _) Hg''. congruence.
      + intros w' HI _.
        assert (ensures (announce_loop env (src_name s) (src_label s)
                           (reverse (new_items sha1_hex env state s))
                           (known_ids state (src_name s)) state)
                  (fun w'' => Inv state w''
                              ∧ (src_name s = name0 → known_ids state (src_name s)
                                   ⊆ K0 ∪ ids (announced label0 (emitted w w''))))
                  (fun st w'' => ∃ known', Inv st w''
                              ∧ (src_name s = name0 → known'
                                   ⊆ K0 ∪ ids (announced label0 (emitted w w'')))) R)
          as Hloop.
        { apply (ensures_announce_loop env (src_name s) (src_label s) _
                   (fun known st w'' => Inv st w''
                      ∧ (src_name s = name0 → known
                           ⊆ K0 ∪ ids (announced label0 (emitted w w'')))) R).
          intros it known st w1 [(Hg1 & d & Hd & H1 & H2) Hk]. split.
          { intros _. by exists d. }
          intros _. cbv zeta. rewrite (emitted_app _ _ _ Hd) in Hk.
          set (e := EvAnnounce (role_mention (ANNOUNCE_ROLE_ID env)) (src_label s) it).
          assert (extends_by w (log e w1) (d ++ [e])) as Hd1.
          { unfold extends_by in *. cbn [log trace]. by rewrite Hd, app_assoc. }
          assert (ids (announced label0 d) ⊆ ids (announced label0 (d ++ [e]))) as Hmono.
          { rewrite announced_app, ids_app. apply union_subseteq_l. }
          assert (src_name s = name0 →
                  {[id it]} ∪ known ⊆ K0 ∪ ids (announced label0 (d ++ [e]))) as Hk'.
          { intros Hn. assert (s = s0) as -> by (by apply registered_by_name).
            unfold e. fold label0. rewrite announced_snoc_announce, decide_True by done.
            rewrite ids_app. specialize (Hk Hn). unfold ids at 2. simpl.
            intros y [Hy|Hy]%elem_of_union.
            - apply elem_of_union_r, elem_of_union_r, elem_of_union_l, Hy.
            - apply Hk in Hy as [?|?]%elem_of_union; [by apply elem_of_union_l|].
              by apply elem_of_union_r, elem_of_union_l. }
          destruct (write_result env _).
          - set (state' := <[src_name s := elements ({[id it]} ∪ known)]> st).
            assert (known_ids state' name0 ⊆ K0 ∪ ids (announced label0 (d ++ [e; EvSave state'])))
              as Hst'.
            { replace (d ++ [e; EvSave state']) with ((d ++ [e]) ++ [EvSave state'])
                by (by rewrite <- app_assoc).
              rewrite announced_snoc_other by done.
              destruct (decide (src_name s = name0)) as [Hn|Hn].
              - unfold state'. rewrite <- Hn, known_ids_insert_eq. by apply Hk'.
              - unfold state'. rewrite known_ids_insert_ne by done.
                etrans; [apply H1|]. by apply union_mono_l. }
            assert (extends_by w (mkWorld (Some state') (bootstrap_done w1)
                                    (trace (log e w1) ++ [EvSave state']))
                      (d ++ [e; EvSave state'])) as Hd2.
            { unfold extends_by in *. cbn [trace]. rewrite Hd1, <- !app_assoc. done. }
            split.
            + split; [done|]. by exists (d ++ [e; EvSave state']).
            + intros Hn. rewrite (emitted_app _ _ _ Hd2).
              replace (d ++ [e; EvSave state']) with ((d ++ [e]) ++ [EvSave state'])
                by (by rewrite <- app_assoc).
              rewrite announced_snoc_other by done. by apply Hk'.
          - exists (d ++ [e]). split; [done|]. etrans; [apply H2|]. by apply union_mono_l.
          - exists (d ++ [e]). split; [done|]. unfold stored. cbn [file].
            rewrite known_ids_empty_state. apply empty_subseteq. }
        destruct HI as (Hg1 & d & Hd & H1 & H2).
        specialize (Hloop w'). destruct (announce_loop _ _ _ _ _ _ _) as [[st|] w''].
        * destruct Hloop as (known' & (Hg2 & d2 & Hd2 & H3 & H4) & _).
          { split; [split; [done|by exists d]|]. intros Hn.
            rewrite (emitted_app _ _ _ Hd), Hn. exact H1. }
          split; [done|]. exists (d2 ++ [EvSleep]). rewrite announced_snoc_other by done.
          split; [|done]. unfold extends_by in *. cbn [log trace]. by rewrite Hd2, app_assoc.
        * apply Hloop. split; [split; [done|by exists d]|]. intros Hn.
          rewrite (emitted_app _ _ _ Hd), Hn. exact H1.
    - intros state w' (_ & d & Hd & _ & H2). by exists d.
    - intros w' (d & Hd & H2). exists (d ++ [EvReport "news_loop 에러"]).
      rewrite announced_snoc_other by done. split; [|done].
      unfold extends_by in *. cbn [log trace]. by rewrite Hd, app_assoc.
    - by intros w' HR. }
  rewrite (emitted_app _ _ _ Hd). apply elem_of_union. by apply Hsub.
Qed.

Lemma persisted_only_after_announced_witness :
  let x := SITE +:+ "/News/Notice/5" in
  let w' := news_loop plain_hash (notice_env page_AE) open_world in
  x ∈ known_ids (stored open_world) "공지사항"
  ∨ x ∈ ids (announced "📣 공지" (emitted open_world w')).
Proof.
  intros x w'.
  apply (persisted_only_after_announced plain_hash (notice_env page_AE) open_world
           notice_source x).
  - apply (bool_decide_unpack _). by vm_compute.
  - reflexivity.
  - apply (bool_decide_unpack _). by vm_compute.
Defined.

(** X9.  Nothing announced is forgotten: while the writes succeed, every
    item an invocation has announced for a source has its id in the
    persisted state of that source when the invocation ends, even when a
    later delivery fails and the invocation ends in [report_error]. *)
Theorem announced_are_persisted (sha1_hex : string → string) (env : Env)
    (w : World) (s0 : Source) (it : Item) :
  (∀ t, write_result env t = Written) →
  s0 ∈ NEWS_SOURCES →
  it ∈ announced (src_label s0) (emitted w (news_loop sha1_hex env w)) →
  id it ∈ known_ids (stored (news_loop sha1_hex env w)) (src_name s0).
Proof.
  intros Hwr Hs0 Hit.
  set (name0 := src_name s0) in *. set (label0 := src_label s0) in *.
  set (R := fun w' : World =>
         ∃ d, extends_by w w' d ∧ ids (announced label0 d) ⊆ known_ids (stored w') name0).
  set (Inv := fun (state : State) (w' : World) =>
         stored w' = state ∧
         ∃ d, extends_by w w' d ∧ ids (announced label0 d) ⊆ known_ids state name0).
  assert (R (news_loop sha1_hex env w)) as (d & Hd & Hsub).
  { apply (ensures_news_loop_end sha1_hex env Inv R R).
    - intros _. exists []. split; [unfold extends_by; by rewrite app_nil_r|].
      apply empty_subseteq.
    - split; [done|]. exists [EvLoad]. split; [done|]. apply empty_subseteq.
    - intros s state Hs. apply (ensures_poll_source sha1_hex env Inv R).
      + intros w' (Hst & d & Hd & H1). split; [done|].
        exists (d ++ fetch_events env s). rewrite announced_fetch_events.
        split; [|done]. unfold extends_by in *. cbn [trace]. by rewrite Hd, app_assoc.
      + intros w' (Hst & d & Hd & H1) _. rewrite Hwr. cbv iota. split; [reflexivity|].
        exists (d ++ [EvSave (baseline sha1_hex env state s)]).
        rewrite announced_snoc_other by done. split.
        * unfold extends_by in *. cbn [trace]. by rewrite Hd, app_assoc.
        * etrans; [apply H1|]. unfold baseline. apply known_ids_insert_grows.
          apply union_subseteq_l.
      + intros w' HI _.
        assert (ensures (announce_loop env (src_name s) (src_label s)
                           (reverse (new_items sha1_hex env state s))
                           (known_ids state (src_name s)) state)
                  (fun w'' => Inv state w''
                              ∧ known_ids state (src_name s) = known_ids state (src_name s))
                  (fun st w'' => ∃ known', Inv st w'' ∧ known_ids st (src_name s) = known') R)
          as Hloop.
        { apply (ensures_announce_loop env (src_name s) (src_label s) _
                   (fun known st w'' => Inv st w'' ∧ known_ids st (src_name s) = known) R).
          intros it' known st w1 [(Hst & d & Hd & H1) Hk]. split.
          { intros _. exists d. by rewrite Hst. }
          intros _. cbv zeta. rewrite Hwr. cbv iota.
          set (e := EvAnnounce (role_mention (ANNOUNCE_ROLE_ID env)) (src_label s) it').
          set (state' := <[src_name s := elements ({[id it']} ∪ known)]> st).
          split; [|apply known_ids_insert_eq]. split; [reflexivity|].
          exists ((d ++ [e]) ++ [EvSave state']). split.
          { unfold extends_by in *. cbn [log trace]. by rewrite Hd, <- !app_assoc. }
          rewrite announced_snoc_other by done. unfold e.
          rewrite announced_snoc_announce, ids_app.
          apply union_least.
          - etrans; [apply H1|]. apply known_ids_insert_grows. rewrite Hk.
            apply union_subseteq_r.
          - case_decide as Hl; [|apply empty_subseteq].
            assert (s = s0) as -> by (by apply registered_by_label).
            fold name0. unfold state'. rewrite known_ids_insert_eq.
            unfold ids. simpl. rewrite union_empty_r_L. apply union_subseteq_l. }
        specialize (Hloop w' (conj HI eq_refl)).
        destruct (announce_loop _ _ _ _ _ _ _) as [[st|] w'']; [|done].
        destruct Hloop as (known' & (Hst & d & Hd & H1) & _). split; [done|].
        exists (d ++ [EvSleep]). rewrite announced_snoc_other by done.
        split; [|done]. unfold extends_by in *. cbn [log trace]. by rewrite Hd, app_assoc.
    - intros state w' (Hst & d & Hd & H1). exists d. by rewrite Hst.
    - intros w' (d & Hd & H1). exists (d ++ [EvReport "news_loop 에러"]).
      rewrite announced_snoc_other by done. split; [|done].
      unfold extends_by in *. cbn [log trace]. by rewrite Hd, app_assoc.
    - by intros w' HR. }
  rewrite (emitted_app _ _ _ Hd) in Hit. apply Hsub. apply elem_of_ids. by exists it.
Qed.

Lemma announced_are_persisted_witness :
  let w' := news_loop plain_hash (notice_env page_AE) open_world in
  id (notice_item "C" "/News/Notice/3") ∈ known_ids (stored w') "공지사항".
Proof.
  intros w'.
  apply (announced_are_persisted plain_hash (notice_env page_AE) open_world notice_source
           (notice_item "C" "/News/Notice/3")).
  - intros t; reflexivity.
  - apply (bool_decide_unpack _). by vm_compute.
  - apply (bool_decide_unpack _). by vm_compute.
Defined.

(** * An invocation repeated *)

Lemma entry_step_idem gate items entry :
  entry_step gate items (entry_step gate items entry) = entry_step gate items entry.
Proof.
  pose proof (entry_step_known gate items entry) as Hknown.
  destruct items as [|it items]; [done|].
  set (batch := it :: items) in *.
  assert (filter (fun i => id i ∉ (list_to_set (default [] (entry_step gate batch entry))
                                    : gset string)) batch = []) as Hnone.
  { apply filter_all_known. intros i Hi. rewrite Hknown.
    apply elem_of_union_r, elem_of_ids. by exists i. }
  unfold entry_step at 1. fold batch. cbv zeta. unfold batch at 1.
  destruct gate.
  - by rewrite Hnone.
  - rewrite Hknown. f_equal.
    unfold entry_step. fold batch. unfold batch at 1. simpl default.
    assert (list_to_set (default [] entry) ∪ ids batch ∪ ids batch
            = (list_to_set (default [] entry) : gset string) ∪ ids batch) as Heq.
    { apply set_eq. intros x. rewrite !elem_of_union. tauto. }
    fold batch. by rewrite Heq.
Qed.

Lemma registered_label_dec (label : string) :
  {s | s ∈ NEWS_SOURCES ∧ src_label s = label} + {label ∉ map src_label NEWS_SOURCES}.
Proof.
  destruct (decide (label ∈ map src_label NEWS_SOURCES)) as [Hin|Hout]; [left|by right].
  induction NEWS_SOURCES as [|s srcs IH]; [exfalso; by apply elem_of_nil in Hin|].
  destruct (decide (src_label s = label)) as [Heq|Hne].
  - exists s. split; [apply list_elem_of_here|done].
  - destruct IH as (s' & Hs' & Hl').
    + simpl in Hin. apply elem_of_cons in Hin as [?|?]; [congruence|done].
    + exists s'. split; [by apply list_elem_of_further|done].
Qed.

Lemma registered_name_dec (n : string) :
  {s | s ∈ NEWS_SOURCES ∧ src_name s = n} + {n ∉ map src_name NEWS_SOURCES}.
Proof.
  destruct (decide (n ∈ map src_name NEWS_SOURCES)) as [Hin|Hout]; [left|by right].
  induction NEWS_SOURCES as [|s srcs IH]; [exfalso; by apply elem_of_nil in Hin|].
  destruct (decide (src_name s = n)) as [Heq|Hne].
  - exists s. split; [apply list_elem_of_here|done].
  - destruct IH as (s' & Hs' & Hl').
    + simpl in Hin. apply elem_of_cons in Hin as [?|?]; [congruence|done].
    + exists s'. split; [by apply list_elem_of_further|done].
Qed.

(** X10.  An invocation repeated in the same surroundings, with nothing
    failing, is silent: it announces nothing, and the ids it leaves known
    under every name are those it found.  With the gate true it does not
    touch the entries at all; with the gate false it rewrites them, as
    lists of the same ids. *)
Theorem repeated_cycle_is_silent (sha1_hex : string → string) (env : Env) (w : World) :
  reliable env →
  let w1 := news_loop sha1_hex env w in
  let w2 := news_loop sha1_hex env w1 in
  (∀ label, announced label (emitted w1 w2) = [])
  ∧ (∀ n, known_ids (stored w2) n = known_ids (stored w1) n)
  ∧ (bootstrap_done w = true → stored w2 = stored w1).
Proof.
  intros [Hsend Hwr] w1 w2.
  enough ((∀ label, announced label (emitted w1 w2) = []) ∧ stored w2 = stored w1)
    as [Hquiet Hsame].
  { split; [done|]. split; [|done]. intros n. by rewrite Hsame. }
  destruct (notice_channel env) eqn:Hch.
  2:{ unfold w2, w1. rewrite !(news_loop_unresolved sha1_hex env) by done.
      rewrite emitted_refl. done. }
  destruct (news_loop_run sha1_hex env Hwr w Hch (fun _ => Hsend)) as (Hst1 & Hg1 & _).
  destruct (news_loop_run sha1_hex env Hwr w1 Hch (fun _ => Hsend)) as (Hst2 & _ & Htr2).
  fold w1 in Hst1, Hg1. fold w2 in Hst2, Htr2. rewrite Hg1 in *.
  assert (∀ s, s ∈ NEWS_SOURCES →
               stored w1 !! src_name s
               = entry_step (bootstrap_done w) (fetched_items sha1_hex env s)
                            (stored w !! src_name s)) as Hentry.
  { intros s Hs. rewrite Hst1. apply cycle_state_entry; [apply NEWS_SOURCES_names|done]. }
  split.
  - intros label. rewrite (emitted_app _ _ _ Htr2).
    change (EvLoad :: ?l) with ([EvLoad] ++ l). rewrite announced_app.
    change (announced label [EvLoad]) with (@nil Item). rewrite app_nil_l.
    destruct (registered_label_dec label) as [(s & Hs & <-)|Hout].
    + rewrite cycle_events_announced
        by (apply NEWS_SOURCES_names || apply NEWS_SOURCES_labels || done).
      destruct (bootstrap_done w); [|done].
      unfold new_items. rewrite filter_all_known; [done|].
      intros i Hi. unfold known_ids. rewrite (Hentry s Hs), entry_step_known.
      apply elem_of_union_r, elem_of_ids. by exists i.
    + by apply cycle_events_announced_other.
  - rewrite Hst2. apply map_eq. intros n.
    destruct (registered_name_dec n) as [(s & Hs & <-)|Hout].
    + rewrite cycle_state_entry by (apply NEWS_SOURCES_names || done).
      rewrite (Hentry s Hs). apply entry_step_idem.
    + by apply cycle_state_other.
Qed.

Lemma repeated_cycle_is_silent_witness :
  let env := notice_env page_AE in
  let w1 := news_loop plain_hash env fresh_world in
  let w2 := news_loop plain_hash env w1 in
  let v1 := news_loop plain_hash env seeded_world in
  let v2 := news_loop plain_hash env v1 in
  ((∀ label, announced label (emitted w1 w2) = [])
   ∧ (∀ n, known_ids (stored w2) n = known_ids (stored w1) n))
  ∧ ((∀ label, announced label (emitted v1 v2) = [])
     ∧ stored v2 = stored v1).
Proof.
  intros env w1 w2 v1 v2.
  assert (reliable env) as Hrel by (split; intros t; reflexivity).
  destruct (repeated_cycle_is_silent plain_hash env fresh_world Hrel) as (Hw & Hwk & _).
  destruct (repeated_cycle_is_silent plain_hash env seeded_world Hrel) as (Hv & _ & Hvs).
  split; [split; [exact Hw|exact Hwk]|split; [exact Hv|exact (Hvs eq_refl)]].
Defined.

(** X11.  With nothing failing, an invocation announces at most five items
    for a source, and none of them twice. *)
Theorem at_most_five_per_source (sha1_hex : string → string) (env : Env)
    (w : World) (s : Source) :
  reliable env →
  s ∈ NEWS_SOURCES →
  (length (announced (src_label s) (emitted w (news_loop sha1_hex env w))) ≤ 5)%nat
  ∧ NoDup (map id (announced (src_label s) (emitted w (news_loop sha1_hex env w)))).
Proof.
  intros [Hsend Hwr] Hs. destruct (notice_channel env) eqn:Hch.
  2:{ rewrite (news_loop_unresolved sha1_hex env) by done. rewrite emitted_refl.
      split; [simpl; lia|constructor]. }
  destruct (news_loop_source sha1_hex env Hch Hwr w s (fun _ => Hsend) Hs) as (_ & -> & _).
  destruct (bootstrap_done w); [|split; [simpl; lia|constructor]].
  split; [|apply new_items_NoDup].
  rewrite length_reverse. unfold new_items. etrans; [apply length_filter|].
  unfold fetched_items. destruct (http_get env (src_url s)); [|simpl; lia].
  pose proof (dedup_loop_bound sha1_hex (collect_anchors l) ∅ [] 5) as Hb.
  unfold extract_items. simpl in Hb. lia.
Qed.

Lemma at_most_five_per_source_witness :
  let w' := news_loop plain_hash (notice_env page_AE) open_world in
  (length (announced "📣 공지" (emitted open_world w')) ≤ 5)%nat
  ∧ NoDup (map id (announced "📣 공지" (emitted open_world w'))).
Proof.
  apply (at_most_five_per_source plain_hash (notice_env page_AE) open_world notice_source).
  - split; intros t; reflexivity.
  - apply (bool_decide_unpack _). by vm_compute.
Defined.

(** * More on the tick cycle *)

(** One invocation in any surroundings. *)
Lemma tick_loop_world (env : Env) (w : World) :
  tick_loop env w
  = mkWorld (file w) (bootstrap_done w) (trace w ++ tick_events env (trace w)).
Proof.
  unfold tick_loop, tick_loop_coro, catch, tick_loop_body, tick_events, report_events,
    bind, send_alert, ret, report_error, log.
  destruct (alert_channel env); [|by rewrite world_eta].
  destruct (is_hour_tick (clock env)), (is_field_boss (clock env));
    repeat (destruct (send_ok env _); cbn [snd trace file bootstrap_done]);
    destruct (log_channel env);
    repeat (destruct (log_send_ok env _); cbn [snd trace file bootstrap_done andb negb]);
    cbn [snd trace file bootstrap_done andb negb];
    rewrite <- ?app_assoc; try done; by rewrite world_eta.
Qed.

Lemma report_events_cases (env : Env) (prefix : string) (tr : list Event) :
  report_events env prefix tr = [] ∨ report_events env prefix tr = [EvReport prefix].
Proof. unfold report_events. destruct (_ && _); auto. Qed.

Ltac report_cases :=
  repeat match goal with
         | |- context [report_events ?e ?p ?t] =>
             let Hr := fresh "Hr" in
             destruct (report_events_cases e p t) as [Hr|Hr]; rewrite Hr; clear Hr
         end.

Lemma field_boss_is_hour_tick (now : Clock) :
  is_field_boss now = true → is_hour_tick now = true.
Proof.
  rewrite is_field_boss_spec, is_hour_tick_spec. lia.
Qed.

(** X12.  Off the full hour, or without a resolvable alert channel, an
    invocation of the tick cycle does nothing at all. *)
Theorem tick_does_nothing (env : Env) (w : World) :
  minute (clock env) ≠ 0 ∨ alert_channel env = false →
  tick_loop env w = w.
Proof.
  intros Hoff. rewrite tick_loop_world. apply world_eta. unfold tick_events.
  destruct (alert_channel env); [|done]. destruct Hoff as [Hmin|?]; [|done].
  assert (is_hour_tick (clock env) = false) as ->.
  { apply not_true_is_false. rewrite is_hour_tick_spec. tauto. }
  assert (is_field_boss (clock env) = false) as ->.
  { apply not_true_is_false. rewrite is_field_boss_spec. tauto. }
  done.
Qed.

Lemma tick_does_nothing_witness :
  let env := mkEnv 0 0 0 true true (mkClock 12 30) (fun _ => None)
                   (fun _ => true) (fun _ => Written) true (fun _ => true) in
  tick_loop env fresh_world = fresh_world.
Proof.
  intros env. apply (tick_does_nothing env fresh_world). left. discriminate.
Defined.

(** X13.  A field-boss alert is never alone: whenever an invocation sends
    it, whatever the platform does, it has sent the hourly alert just
    before, and these two messages are all it has emitted. *)
Theorem field_boss_follows_hourly (env : Env) (w : World) (m : option Z) (c : Clock) :
  FieldBoss m c ∈ alerts (emitted w (tick_loop env w)) →
  emitted w (tick_loop env w)
  = [EvAlert (HourTick (role_mention (HOUR_TICK_ROLE_ID env)) (clock env));
     EvAlert (FieldBoss (role_mention (FIELD_BOSS_ROLE_ID env)) (clock env))].
Proof.
  assert (emitted w (tick_loop env w) = tick_events env (trace w)) as ->.
  { apply emitted_app. by rewrite tick_loop_world. }
  unfold tick_events. pose proof (field_boss_is_hour_tick (clock env)) as Himp.
  destruct (alert_channel env); [|by intros ?%elem_of_nil].
  destruct (is_field_boss (clock env)).
  - rewrite Himp by done.
    destruct (send_ok env (trace w)); [destruct (send_ok env _); [done|]|];
      report_cases; unfold alerts; cbn; rewrite ?elem_of_cons, ?elem_of_nil;
      intros H; exfalso; intuition discriminate.
  - destruct (is_hour_tick (clock env)); [destruct (send_ok env (trace w))|];
      report_cases; unfold alerts; cbn; rewrite ?elem_of_cons, ?elem_of_nil;
      intros H; exfalso; intuition discriminate.
Qed.

Lemma field_boss_follows_hourly_witness :
  emitted fresh_world (tick_loop (notice_env []) fresh_world)
  = [EvAlert (HourTick None (mkClock 12 0)); EvAlert (FieldBoss None (mkClock 12 0))].
Proof.
  apply (field_boss_follows_hourly (notice_env []) fresh_world None (mkClock 12 0)).
  apply (bool_decide_unpack _). by vm_compute.
Defined.

(** X14.  The tick cycle keeps to itself: in any surroundings an invocation
    leaves the state file and the bootstrap gate as they are, emits at most
    two events, and none of them is a news notification, a fetch or a
    rewrite of the state. *)
Theorem tick_keeps_to_itself (env : Env) (w : World) :
  file (tick_loop env w) = file w
  ∧ bootstrap_done (tick_loop env w) = bootstrap_done w
  ∧ (length (emitted w (tick_loop env w)) ≤ 2)%nat
  ∧ ∀ e, e ∈ emitted w (tick_loop env w) →
         (∃ a, e = EvAlert a) ∨ e = EvReport "tick_loop 에러".
Proof.
  assert (emitted w (tick_loop env w) = tick_events env (trace w)) as ->.
  { apply emitted_app. by rewrite tick_loop_world. }
  rewrite tick_loop_world. split; [done|]. split; [done|].
  unfold tick_events.
  destruct (alert_channel env), (is_hour_tick (clock env)), (is_field_boss (clock env));
    repeat (destruct (send_ok env _));
    report_cases;
    (split; [simpl; lia|]); intros e He;
    repeat (apply elem_of_cons in He as [->|He]; [eauto|]);
    by apply elem_of_nil in He.
Qed.

(** * The text of an error report *)

Lemma last_chars_length {A} (n : nat) (s : list A) :
  length (last_chars n s) = Nat.min (length s) n.
Proof. unfold last_chars. rewrite length_drop. lia. Qed.

(** X15.  An error report carries the end of the traceback: what stands in
    the code fence is the last 1800 code points of the traceback, all of it
    when it is no longer than that, so that the message is 11 code points
    longer than the prefix and the part kept. *)
Theorem error_message_keeps_tail (prefix tb : list Z) :
  ∃ front kept,
    tb = front ++ kept
    ∧ error_message prefix tb
      = [10071; 32] ++ prefix ++ [10; 96; 96; 96; 10] ++ kept ++ [10; 96; 96; 96]
    ∧ length kept = Nat.min (length tb) 1800
    ∧ length (error_message prefix tb) = (length prefix + 11 + Nat.min (length tb) 1800)%nat
    ∧ ((length tb ≤ 1800)%nat → kept = tb).
Proof.
  exists (take (length tb - 1800) tb), (last_chars 1800 tb).
  split; [unfold last_chars; by rewrite take_drop|]. split; [done|].
  split; [apply last_chars_length|]. split.
  - unfold error_message. rewrite !length_app, last_chars_length. simpl. lia.
  - intros Hshort. unfold last_chars. replace (length tb - 1800)%nat with 0%nat by lia. done.
Qed.

(** * The role panel *)

Lemma toggled_texts_differ (role : Role) : removed_text role ≠ added_text role.
Proof. unfold removed_text, added_text. intros Heq. by inversion Heq. Qed.

(** A press that the platform carries out. *)
Lemma role_button_carried_out (c : Z) (missing : string) (g : gmap Z string) (roles : gset Z) :
  ∃ roles' msg,
    role_button c missing true g roles = Some (roles', msg)
    ∧ (∀ r, r ≠ c → (r ∈ roles' ↔ r ∈ roles))
    ∧ (c ∈ roles' ↔ match g !! c with Some _ => c ∉ roles | None => c ∈ roles end)
    ∧ msg = match g !! c with
            | None => missing
            | Some name => if decide (c ∈ roles) then removed_text (mkRole c name)
                           else added_text (mkRole c name)
            end.
Proof.
  unfold role_button, toggle_role. destruct (g !! c) as [name|]; cbn [role_id].
  - destruct (decide (c ∈ roles)) as [Hin|Hout]; eexists _, _; (split; [reflexivity|]).
    + split; [|split; [|done]].
      * intros r Hr. rewrite elem_of_difference, elem_of_singleton. tauto.
      * rewrite elem_of_difference, elem_of_singleton. tauto.
    + split; [|split; [|done]].
      * intros r Hr. rewrite elem_of_union, elem_of_singleton. tauto.
      * rewrite elem_of_union, elem_of_singleton. tauto.
  - exists roles, missing. by repeat split.
Qed.

(** X16.  Pressing a button of the panel twice leaves the member's roles as
    they were, with two different answers, when the role exists and the
    platform carries out both changes. *)
Theorem button_twice_restores (configured : Z) (missing name : string)
    (guild_roles : gmap Z string) (roles : gset Z) :
  guild_roles !! configured = Some name →
  ∃ roles1 msg1 msg2,
    role_button configured missing true guild_roles roles = Some (roles1, msg1)
    ∧ role_button configured missing true guild_roles roles1 = Some (roles, msg2)
    ∧ (configured ∈ roles1 ↔ configured ∉ roles)
    ∧ msg1 ≠ msg2.
Proof.
  intros Hrole.
  destruct (role_button_carried_out configured missing guild_roles roles)
    as (r1 & m1 & E1 & O1 & I1 & M1).
  destruct (role_button_carried_out configured missing guild_roles r1)
    as (r2 & m2 & E2 & O2 & I2 & M2).
  rewrite Hrole in I1, I2, M1, M2.
  assert (r2 = roles) as ->.
  { apply set_eq. intros r. destruct (decide (r = configured)) as [->|Hr].
    - rewrite I2, I1. destruct (decide (configured ∈ roles)); tauto.
    - by rewrite (O2 r Hr), (O1 r Hr). }
  exists r1, m1, m2. split; [done|]. split; [done|]. split; [done|].
  rewrite M1, M2.
  destruct (decide (configured ∈ roles)), (decide (configured ∈ r1)); try tauto.
  - apply toggled_texts_differ.
  - apply not_eq_sym, toggled_texts_differ.
Qed.

Lemma button_twice_restores_witness :
  ∃ roles1 msg1 msg2,
    role_button 7 "missing" true {[7 := "boss"]} {[3]} = Some (roles1, msg1)
    ∧ role_button 7 "missing" true {[7 := "boss"]} roles1 = Some ({[3]}, msg2)
    ∧ (7 ∈ roles1 ↔ 7 ∉ ({[3]} : gset Z))
    ∧ msg1 ≠ msg2.
Proof.
  apply (button_twice_restores 7 "missing" "boss" {[7 := "boss"]} {[3]}).
  apply lookup_singleton_eq.
Defined.


(** X18.  The two buttons do not interfere: when their role ids differ and
    the platform carries out the changes, pressing one and then the other
    gives the same roles and the same two answers in either order. *)
Theorem buttons_commute (env : Env) (guild_roles : gmap Z string) (roles : gset Z) :
  HOUR_TICK_ROLE_ID env ≠ FIELD_BOSS_ROLE_ID env →
  ∃ after_hour after_boss final msg_hour msg_boss,
    hour_btn env true guild_roles roles = Some (after_hour, msg_hour)
    ∧ boss_btn env true guild_roles after_hour = Some (final, msg_boss)
    ∧ boss_btn env true guild_roles roles = Some (after_boss, msg_boss)
    ∧ hour_btn env true guild_roles after_boss = Some (final, msg_hour).
Proof.
  intros Hne. unfold hour_btn, boss_btn.
  set (h := HOUR_TICK_ROLE_ID env) in *. set (b := FIELD_BOSS_ROLE_ID env) in *.
  set (mh := "❌ `HOUR_TICK_ROLE_ID` 역할을 못 찾았어요").
  set (mb := "❌ `FIELD_BOSS_ROLE_ID` 역할을 못 찾았어요").
  clearbody mh mb.
  destruct (role_button_carried_out h mh guild_roles roles) as (r1 & m1 & E1 & O1 & I1 & M1).
  destruct (role_button_carried_out b mb guild_roles r1) as (r2 & m2 & E2 & O2 & I2 & M2).
  destruct (role_button_carried_out b mb guild_roles roles) as (r3 & m3 & E3 & O3 & I3 & M3).
  destruct (role_button_carried_out h mh guild_roles r3) as (r4 & m4 & E4 & O4 & I4 & M4).
  assert (b ∈ r1 ↔ b ∈ roles) as Hb by (apply O1; by apply not_eq_sym).
  assert (h ∈ r3 ↔ h ∈ roles) as Hh by (by apply O3).
  assert (m2 = m3) as <-.
  { rewrite M2, M3. destruct (guild_roles !! b); [|done].
    destruct (decide (b ∈ r1)), (decide (b ∈ roles)); tauto || done. }
  assert (m4 = m1) as ->.
  { rewrite M4, M1. destruct (guild_roles !! h); [|done].
    destruct (decide (h ∈ r3)), (decide (h ∈ roles)); tauto || done. }
  assert (r4 = r2) as ->.
  { apply set_eq. intros r.
    destruct (decide (r = h)) as [->|Hrh]; [|destruct (decide (r = b)) as [->|Hrb]].
    - rewrite I4, (O2 h Hne), I1. clear -Hh. destruct (guild_roles !! h); by rewrite Hh.
    - rewrite (O4 b Hrh), I3, I2. clear -Hb. destruct (guild_roles !! b); by rewrite Hb.
    - rewrite (O4 r Hrh), (O3 r Hrb), (O2 r Hrb), (O1 r Hrh). done. }
  by exists r1, r3, r2, m1, m2.
Qed.

Lemma buttons_commute_witness :
  let env := mkEnv 5 7 0 true true (mkClock 12 0) (fun _ => None)
                   (fun _ => true) (fun _ => Written) true (fun _ => true) in
  ∃ after_hour after_boss final msg_hour msg_boss,
    hour_btn env true {[5 := "hour"; 7 := "boss"]} {[7]} = Some (after_hour, msg_hour)
    ∧ boss_btn env true {[5 := "hour"; 7 := "boss"]} after_hour = Some (final, msg_boss)
    ∧ boss_btn env true {[5 := "hour"; 7 := "boss"]} {[7]} = Some (after_boss, msg_boss)
    ∧ hour_btn env true {[5 := "hour"; 7 := "boss"]} after_boss = Some (final, msg_hour).
Proof.
  intros env. apply (buttons_commute env {[5 := "hour"; 7 := "boss"]} {[7]}). discriminate.
Defined.

(** * The process from its start *)

Lemma run_app sha1_hex (a b : list Step) (p : Process) :
  run sha1_hex (a ++ b) p = run sha1_hex b (run sha1_hex a p).
Proof. unfold run. apply fold_left_app. Qed.

Lemma run_keeps sha1_hex (I : Process → Prop) (allowed : Step → Prop) :
  (∀ p st, allowed st → I p → I (step sha1_hex p st)) →
  ∀ steps p, Forall allowed steps → I p → I (run sha1_hex steps p).
Proof.
  intros Hstep steps. induction steps as [|st steps IH]; intros p Hall Hp; [done|].
  apply Forall_cons in Hall as [Hst Hall]. cbn [run fold_left]. apply IH; [done|].
  by apply Hstep.
Qed.

Lemma tick_events_announced env tr label : announced label (tick_events env tr) = [].
Proof.
  unfold tick_events.
  destruct (alert_channel env), (is_hour_tick (clock env)), (is_field_boss (clock env));
    repeat (destruct (send_ok env _)); report_cases; done.
Qed.

Lemma catch_returned {A} (m h : Prog A) (w : World) :
  (∀ w', returned (h w') = true) → returned (catch m h w) = true.
Proof. intros Hh. unfold catch. destruct (m w) as [[a|] w']; [done|apply Hh]. Qed.

Lemma report_error_returned (env : Env) (prefix : string) (w : World) :
  report_arrives env → returned (report_error env prefix w) = true.
Proof.
  unfold report_error, report_arrives. intros Hlog.
  destruct (log_channel env); [|done]. by rewrite Hlog.
Qed.

Lemma news_loop_coro_returned sha1_hex (env : Env) (w : World) :
  report_arrives env → returned (news_loop_coro sha1_hex env w) = true.
Proof. intros Hlog. apply catch_returned. intros w'. by apply report_error_returned. Qed.

Lemma tick_loop_coro_returned (env : Env) (w : World) :
  report_arrives env → returned (tick_loop_coro env w) = true.
Proof. intros Hlog. apply catch_returned. intros w'. by apply report_error_returned. Qed.

(** X19.  While every error report gets out, no loop stops, and in every
    state the process can reach from its start: at most one callback is
    pending; the two loops run or not together; the gate is true only when
    [news_loop] runs and no callback is pending; and until [on_ready] is
    called nothing has happened to the surroundings. *)
Theorem process_invariant (sha1_hex : string → string) (file0 : option State)
    (steps : list Step) :
  Forall reports_arrive steps →
  let p := run sha1_hex steps (process_start file0) in
  (timers p ≤ 1)%nat
  ∧ tick_running p = news_running p
  ∧ (bootstrap_done (world p) = true → news_running p = true ∧ timers p = 0%nat)
  ∧ (news_running p = false → world p = mkWorld file0 false [] ∧ timers p = 0%nat).
Proof.
  intros Hsteps.
  set (I := fun p : Process =>
         (timers p ≤ 1)%nat
         ∧ tick_running p = news_running p
         ∧ (bootstrap_done (world p) = true → news_running p = true ∧ timers p = 0%nat)
         ∧ (news_running p = false → world p = mkWorld file0 false [] ∧ timers p = 0%nat)).
  apply (run_keeps sha1_hex I reports_arrive); [|done|].
  - intros [pw tk nw tm] st Hst (Ht & Hrun & Hgate & Hoff). unfold I.
    cbn [timers tick_running news_running world] in *. subst tk.
    destruct st as [| |env|env]; cbn [step on_ready timers tick_running news_running world].
    + destruct nw; cbn [timers tick_running news_running world bootstrap_done].
      * repeat split; first [done | lia | tauto].
      * destruct (Hoff eq_refl) as [_ ->]. repeat split; first [done | lia | tauto].
    + destruct tm as [|n]; cbn [timers tick_running news_running world];
        [repeat split; first [done | lia | tauto]|].
      destruct nw; [|destruct (Hoff eq_refl); lia].
      repeat split; first [done | lia | tauto].
    + destruct nw; cbn [timers tick_running news_running world];
        [|repeat split; first [done | lia | tauto]].
      rewrite !news_loop_coro_returned by done.
      rewrite news_loop_keeps_gate. repeat split; first [done | lia | tauto].
    + destruct nw; cbn [timers tick_running news_running world];
        [|repeat split; first [done | lia | tauto]].
      rewrite !tick_loop_coro_returned by done.
      rewrite tick_loop_keeps_gate. repeat split; first [done | lia | tauto].
  - unfold I, process_start. cbn. repeat split; first [done | lia].
Qed.

Lemma process_invariant_witness :
  let p := run plain_hash [Ready; Poll (notice_env page_AE); Timer;
                           Poll (deaf_env page_FD); Tick (deaf_env [])]
               (process_start None) in
  (timers p ≤ 1)%nat
  ∧ tick_running p = news_running p
  ∧ (bootstrap_done (world p) = true → news_running p = true ∧ timers p = 0%nat)
  ∧ (news_running p = false → world p = mkWorld None false [] ∧ timers p = 0%nat).
Proof.
  apply (process_invariant plain_hash None).
  repeat constructor; intros _ t; reflexivity.
Defined.

(** X20.  Before the callback fires nothing is announced: along any steps
    of the process that do not include the callback, whatever the
    surroundings of each invocation, the gate is false and the history
    holds no news notification. *)
Theorem quiet_until_callback (sha1_hex : string → string) (file0 : option State)
    (steps : list Step) :
  Forall (fun st => st ≠ Timer) steps →
  let p := run sha1_hex steps (process_start file0) in
  bootstrap_done (world p) = false
  ∧ ∀ label, announced label (trace (world p)) = [].
Proof.
  intros Hsteps.
  set (I := fun p : Process =>
         bootstrap_done (world p) = false ∧ ∀ label, announced label (trace (world p)) = []).
  apply (run_keeps sha1_hex I (fun st => st ≠ Timer)); [|done|by split].
  intros p st Hst [Hg Hquiet]. destruct st as [| |env|env]; cbn [step]; [|done| |].
  - unfold on_ready. by destruct (news_running p).
  - destruct (news_running p); [|by split]. split; cbn [world].
    + by rewrite news_loop_keeps_gate.
    + intros label. rewrite news_loop_appends, announced_app, Hquiet.
      by apply news_loop_closed_quiet.
  - destruct (tick_running p); [|by split]. split; cbn [world].
    + by rewrite tick_loop_keeps_gate.
    + intros label. rewrite tick_loop_world. cbn [trace].
      by rewrite announced_app, Hquiet, tick_events_announced.
Qed.

Lemma quiet_until_callback_witness :
  let p := run plain_hash [Ready; Poll (notice_env page_AE); Tick (notice_env []);
                           Poll (notice_env page_FD)] (process_start None) in
  bootstrap_done (world p) = false
  ∧ ∀ label, announced label (trace (world p)) = [].
Proof.
  apply (quiet_until_callback plain_hash None).
  repeat constructor; discriminate.
Defined.

(** X21.  With [on_ready] called once, the callback opens the gate for
    good: after the first [on_ready], once the callback has fired, the gate
    is true whatever the loops do afterwards. *)
Theorem single_ready_opens_gate (sha1_hex : string → string) (file0 : option State)
    (before after : list Step) :
  Forall (fun st => st ≠ Ready) before →
  Forall (fun st => st ≠ Ready) after →
  bootstrap_done
    (world (run sha1_hex (Ready :: before ++ Timer :: after) (process_start file0))) = true.
Proof.
  intros Hbefore Hafter.
  change (Ready :: before ++ Timer :: after) with ([Ready] ++ before ++ [Timer] ++ after).
  rewrite !run_app. apply gate_stays_open; [|done].
  set (J := fun p : Process => timers p = 1%nat ∨ bootstrap_done (world p) = true).
  set (p := run sha1_hex before (run sha1_hex [Ready] (process_start file0))).
  assert (J p) as Hj.
  { apply (run_keeps sha1_hex J (fun st => st ≠ Ready)); [|done|by left].
    intros [pw tk nw tm] st Hst Hj. unfold J.
    cbn [timers tick_running news_running world] in *.
    destruct st as [| |env|env]; cbn [step timers tick_running news_running world]; [done| | |].
    - destruct tm as [|n]; cbn [timers tick_running news_running world]; [done|].
      by right.
    - destruct nw; cbn [timers tick_running news_running world]; [|done].
      by rewrite news_loop_keeps_gate.
    - destruct tk; cbn [timers tick_running news_running world]; [|done].
      by rewrite tick_loop_keeps_gate. }
  change (run sha1_hex [Timer] p) with (step sha1_hex p Timer). cbn [step].
  destruct Hj as [Ht|Hg]; [by rewrite Ht|]. by destruct (timers p).
Qed.

Lemma single_ready_opens_gate_witness :
  bootstrap_done
    (world (run plain_hash
              (Ready :: [Poll (notice_env page_AE)] ++ Timer :: [Poll (notice_env page_FD)])
              (process_start None))) = true.
Proof.
  apply (single_ready_opens_gate plain_hash None
           [Poll (notice_env page_AE)] [Poll (notice_env page_FD)]);
    repeat constructor; discriminate.
Defined.

(** * The error report of the poll cycle *)

(** X22.  An invocation of the poll cycle reports an error at most once,
    as the last thing it does, and only when a delivery or a write has
    failed: in surroundings where none fails it reports nothing. *)
Theorem reports_once_and_last (sha1_hex : string → string) (env : Env) (w : World) :
  ∃ body,
    Forall (fun e => is_report e = false) body
    ∧ (emitted w (news_loop sha1_hex env w) = body
       ∨ (emitted w (news_loop sha1_hex env w) = body ++ [EvReport "news_loop 에러"]
          ∧ ¬ reliable env)).
Proof.
  set (Inv := fun (_ : State) (w' : World) =>
         ∃ d, extends_by w w' d ∧ Forall (fun e => is_report e = false) d).
  set (R := fun w' : World =>
         (∃ d, extends_by w w' d ∧ Forall (fun e => is_report e = false) d) ∧ ¬ reliable env).
  set (F := fun w' : World =>
         ∃ body, Forall (fun e => is_report e = false) body
                 ∧ (extends_by w w' body
                    ∨ (extends_by w w' (body ++ [EvReport "news_loop 에러"]) ∧ ¬ reliable env))).
  assert (F (news_loop sha1_hex env w)) as (body & Hbody & Hcases).
  { apply (ensures_news_loop_end sha1_hex env Inv R F).
    - intros _. exists []. split; [constructor|]. left. unfold extends_by. by rewrite app_nil_r.
    - exists [EvLoad]. split; [done|]. by repeat constructor.
    - intros s state _. apply (ensures_poll_source sha1_hex env Inv R).
      + intros w' (d & Hd & Hq). exists (d ++ fetch_events env s). split.
        * unfold extends_by in *. cbn [trace]. by rewrite Hd, app_assoc.
        * apply Forall_app. split; [done|]. unfold fetch_events.
          destruct (http_get env (src_url s)); by repeat constructor.
      + intros w' (d & Hd & Hq) _. destruct (write_result env (trace w')) eqn:Hw.
        * eexists (d ++ [EvSave _]). split.
          -- unfold extends_by in *. cbn [trace]. by rewrite Hd, app_assoc.
          -- apply Forall_app. split; [done|]. by repeat constructor.
        * split; [by exists d|]. intros [_ Hwr]. by rewrite Hwr in Hw.
        * split; [by exists d|]. intros [_ Hwr]. by rewrite Hwr in Hw.
      + intros w' HI _.
        assert (ensures (announce_loop env (src_name s) (src_label s)
                           (reverse (new_items sha1_hex env state s))
                           (known_ids state (src_name s)) state)
                  (Inv state) (fun st w'' => ∃ _ : gset string, Inv st w'') R) as Hloop.
        { apply (ensures_announce_loop env (src_name s) (src_label s) _
                   (fun _ st w'' => Inv st w'') R).
          intros it known st' w1 (d & Hd & Hq). split.
          { intros Hs. split; [by exists d|]. intros [Hsend _]. by rewrite Hsend in Hs. }
          intros _. cbv zeta.
          set (e := EvAnnounce (role_mention (ANNOUNCE_ROLE_ID env)) (src_label s) it).
          assert (extends_by w (log e w1) (d ++ [e])
                  ∧ Forall (fun e => is_report e = false) (d ++ [e])) as [Hd1 Hq1].
          { split.
            - unfold extends_by in *. cbn [log trace]. by rewrite Hd, app_assoc.
            - apply Forall_app. split; [done|]. by repeat constructor. }
          destruct (write_result env (trace (log e w1))) eqn:Hw.
          - eexists ((d ++ [e]) ++ [EvSave _]). split.
            + unfold extends_by in *. cbn [trace]. by rewrite Hd1, <- !app_assoc.
            + apply Forall_app. split; [done|]. by repeat constructor.
          - split; [by exists (d ++ [e])|]. intros [_ Hwr]. by rewrite Hwr in Hw.
          - split; [by exists (d ++ [e])|]. intros [_ Hwr]. by rewrite Hwr in Hw. }
        specialize (Hloop w' HI).
        destruct (announce_loop _ _ _ _ _ _ _) as [[st|] w'']; [|done].
        destruct Hloop as (_ & d & Hd & Hq). exists (d ++ [EvSleep]). split.
        * unfold extends_by in *. cbn [log trace]. by rewrite Hd, app_assoc.
        * apply Forall_app. split; [done|]. by repeat constructor.
    - intros state w' (d & Hd & Hq). exists d. split; [done|]. by left.
    - intros w' ((d & Hd & Hq) & Hunrel). exists d. split; [done|]. right. split; [|done].
      unfold extends_by in *. cbn [log trace]. by rewrite Hd, app_assoc.
    - intros w' ((d & Hd & Hq) & _). exists d. split; [done|]. by left. }
  exists body. split; [done|].
  destruct Hcases as [Hd|[Hd Hunrel]]; rewrite (emitted_app _ _ _ Hd); [by left|by right].
Qed.

(** * The backlog *)

(** X23.  The backlog is never announced: an item that was in the batch of
    a source while the gate was false is announced for that source neither
    in that invocation nor in any later one, once the gate is true and
    while nothing fails. *)
Theorem backlog_never_announced (sha1_hex : string → string) (env0 : Env)
    (envs : list Env) (w : World) (s : Source) (x : string) :
  s ∈ NEWS_SOURCES →
  notice_channel env0 = true →
  (∀ t, write_result env0 t = Written) →
  bootstrap_done w = false →
  x ∈ ids (fetched_items sha1_hex env0 s) →
  Forall reliable envs →
  let w1 := set_bootstrap_done (news_loop sha1_hex env0 w) in
  announcements_of (src_label s) x (emitted w (news_loop sha1_hex env0 w)) = []
  ∧ announcements_of (src_label s) x (emitted w1 (run_cycles sha1_hex envs w1)) = [].
Proof.
  intros Hs Hch Hwr Hg Hx Hrel w1. split.
  - unfold announcements_of.
    destruct (news_loop_closed_quiet sha1_hex env0 w Hg) as [_ Hquiet]. by rewrite Hquiet.
  - assert (x ∈ known_ids (stored w1) (src_name s)) as Hk.
    { change (stored w1) with (stored (news_loop sha1_hex env0 w)).
      rewrite (news_loop_known sha1_hex env0 Hch Hwr w s) by (done || congruence).
      by apply elem_of_union_r. }
    by apply run_cycles_known.
Qed.

Lemma backlog_never_announced_witness :
  let x := SITE +:+ "/News/Notice/3" in
  let w1 := set_bootstrap_done (news_loop plain_hash (notice_env page_AE) fresh_world) in
  announcements_of "📣 공지" x
    (emitted fresh_world (news_loop plain_hash (notice_env page_AE) fresh_world)) = []
  ∧ announcements_of "📣 공지" x
      (emitted w1 (run_cycles plain_hash [notice_env page_FD; notice_env page_AE] w1)) = [].
Proof.
  intros x.
  apply (backlog_never_announced plain_hash (notice_env page_AE)
           [notice_env page_FD; notice_env page_AE] fresh_world notice_source x).
  - apply (bool_decide_unpack _). by vm_compute.
  - reflexivity.
  - intros t; reflexivity.
  - reflexivity.
  - apply (bool_decide_unpack _). by vm_compute.
  - repeat constructor.
Defined.

(** X24.  Whatever the gate says, with nothing failing, the ids known for a
    source after an invocation are those known before together with those
    of the batch fetched: no id is lost, and every fetched id is known. *)
Theorem fetched_become_known (sha1_hex : string → string) (env : Env)
    (w : World) (s : Source) :
  notice_channel env = true →
  reliable env →
  s ∈ NEWS_SOURCES →
  known_ids (stored (news_loop sha1_hex env w)) (src_name s)
  = known_ids (stored w) (src_name s) ∪ ids (fetched_items sha1_hex env s).
Proof. intros Hch [Hsend Hwr] Hs. by apply news_loop_known. Qed.

Lemma fetched_become_known_witness :
  known_ids (stored (news_loop plain_hash (notice_env page_FD) open_world)) "공지사항"
  = known_ids (stored open_world) "공지사항"
    ∪ ids (fetched_items plain_hash (notice_env page_FD) notice_source).
Proof.
  apply (fetched_become_known plain_hash (notice_env page_FD) open_world notice_source).
  - reflexivity.
  - split; intros t; reflexivity.
  - apply (bool_decide_unpack _). by vm_compute.
Defined.
